(** * Crossword generation as constraint satisfaction

    A shallow embedding of [CrosswordCreator] from
    [AI/Lecture-3/Crossword/generate.py]: node consistency, [revise],
    AC-3, the consistency check, the two heuristics and backtracking
    search, followed by the properties of the engine.

    Conventions of the embedding.
    - A Python [set] of words is the list of its elements in iteration
      order; removing elements keeps the order of the others.
    - A Python [dict] is an association list in insertion order.
    - A call either returns, raises, or (for the [while] loop of [ac3]
      and the recursion of [backtrack]) runs out of fuel.
    - Mutation of [self.domains] and of the [assignment] dictionary is
      explicit state passing: every operation returns the store it
      leaves behind, also when it raises. *)

From Stdlib Require Import List String Ascii Arith Bool Lia ZArith.
From Stdlib Require Import Permutation Sorted.
Import ListNotations.
Local Open Scope string_scope.
Local Open Scope nat_scope.
Local Open Scope list_scope.

(** ** Outcomes of a call *)

Inductive exn : Type :=
| KeyError | IndexError | TypeError | RuntimeError | AttributeError.

Inductive outcome (A : Type) : Type :=
| Ret (a : A)
| Raise (e : exn)
| OutOfFuel.

Arguments Ret {A} a.
Arguments Raise {A} e.
Arguments OutOfFuel {A}.

(** ** The puzzle model *)

Inductive Direction : Type := ACROSS | DOWN.

(** Modelled from the spec: the class [Variable] of [crossword.py], which
    is imported by [generate.py] and not part of the sources.  A variable
    is the tuple (row, column, orientation, length); two variables are
    equal iff all four fields match. *)
Record Var : Type := mkVar {
  var_i : nat;
  var_j : nat;
  var_direction : Direction;
  var_length : nat
}.

Definition Direction_eqb (a b : Direction) : bool :=
  match a, b with
  | ACROSS, ACROSS | DOWN, DOWN => true
  | _, _ => false
  end.

Definition Var_eqb (a b : Var) : bool :=
  (var_i a =? var_i b) && (var_j a =? var_j b)
  && Direction_eqb (var_direction a) (var_direction b)
  && (var_length a =? var_length b).

(** Modelled from the spec: the class [Crossword] of [crossword.py]
    (the Puzzle Model), which is not part of the sources.  It exposes the
    set of variables, the vocabulary and, for a pair of crossing
    variables, the character index in each one's word that must match;
    an absent entry means that the pair does not overlap. *)
Record Crossword : Type := mkCrossword {
  variables : list Var;
  words : list string;
  overlaps : Var -> Var -> option (nat * nat)
}.

Definition mem_var (v : Var) (l : list Var) : bool := existsb (Var_eqb v) l.
Definition mem_word (w : string) (l : list string) : bool :=
  existsb (String.eqb w) l.

(** Modelled from the spec: [Crossword.neighbors(v)], the set of variables
    sharing an overlap with [v]. *)
Definition neighbors (c : Crossword) (v : Var) : list Var :=
  filter (fun u => match overlaps c v u with Some _ => true | None => false end)
         (variables c).

(** ** Dictionaries keyed by variables *)

Section Dict.
Context {V : Type}.

Fixpoint dict_get (d : list (Var * V)) (k : Var) : option V :=
  match d with
  | [] => None
  | (k', v) :: r => if Var_eqb k k' then Some v else dict_get r k
  end.

(** [d[k] = v]: overwrite in place, or insert at the end. *)
Fixpoint dict_set (d : list (Var * V)) (k : Var) (v : V) : list (Var * V) :=
  match d with
  | [] => [(k, v)]
  | (k', v') :: r =>
      if Var_eqb k k' then (k, v) :: r else (k', v') :: dict_set r k v
  end.

(** [del d[k]] on a dictionary that has the key. *)
Fixpoint dict_del (d : list (Var * V)) (k : Var) : list (Var * V) :=
  match d with
  | [] => []
  | (k', v') :: r => if Var_eqb k k' then r else (k', v') :: dict_del r k
  end.

Definition dict_keys (d : list (Var * V)) : list Var := map fst d.
Definition dict_values (d : list (Var * V)) : list V := map snd d.
Definition dict_mem (d : list (Var * V)) (k : Var) : bool :=
  mem_var k (dict_keys d).
End Dict.

Definition domains_t : Type := list (Var * list string).
Definition assignment_t : Type := list (Var * string).
Definition arc : Type := (Var * Var)%type.

(** The domain of a variable as a plain list: empty for a missing key. *)
Definition dom (d : domains_t) (v : Var) : list string :=
  match dict_get d v with Some ws => ws | None => [] end.

(** [s - t] on sets of words. *)
Definition set_diff (s t : list string) : list string :=
  filter (fun w => negb (mem_word w t)) s.

(** [s.remove(w)] on a set that contains [w]. *)
Definition set_remove (w : string) (s : list string) : list string :=
  filter (fun w' => negb (String.eqb w w')) s.

(** ** [__init__]: every variable starts with a copy of the vocabulary *)

Definition init_domains (c : Crossword) : domains_t :=
  map (fun v => (v, words c)) (variables c).

(** ** [enforce_node_consistency] *)

(** The inner loop over [self.crossword.words] for one variable.
    [set.remove] raises [KeyError] on a word that is not in the set. *)
Fixpoint node_consistency_words (v : Var) (ws : list string) (d : domains_t)
  : outcome unit * domains_t :=
  match ws with
  | [] => (Ret tt, d)
  | w :: rest =>
      if String.length w =? var_length v then node_consistency_words v rest d
      else
        match dict_get d v with
        | None => (Raise KeyError, d)
        | Some s =>
            if mem_word w s
            then node_consistency_words v rest (dict_set d v (set_remove w s))
            else (Raise KeyError, d)
        end
  end.

Fixpoint node_consistency_vars (c : Crossword) (vs : list Var) (d : domains_t)
  : outcome unit * domains_t :=
  match vs with
  | [] => (Ret tt, d)
  | v :: rest =>
      match node_consistency_words v (words c) d with
      | (Ret _, d') => node_consistency_vars c rest d'
      | (o, d') => (o, d')
      end
  end.

Definition enforce_node_consistency (c : Crossword) (d : domains_t)
  : outcome unit * domains_t :=
  node_consistency_vars c (variables c) d.

(** ** [revise] *)

(** [any(word_y[cell_y] == word_x[cell_x] for word_x in self.domains[x])]:
    the generator is consumed up to the first match; indexing a word past
    its end raises [IndexError]. *)
Fixpoint any_match (word_y : string) (cell_y cell_x : nat) (dx : list string)
  : outcome bool :=
  match dx with
  | [] => Ret false
  | word_x :: rest =>
      match String.get cell_y word_y with
      | None => Raise IndexError
      | Some a =>
          match String.get cell_x word_x with
          | None => Raise IndexError
          | Some b =>
              if Ascii.eqb a b then Ret true
              else any_match word_y cell_y cell_x rest
          end
      end
  end.

(** The loop [for word_y in self.domains[y]], which collects in
    [out_ruled] the words of the domain of [y] that match no word of the
    domain of [x]. *)
Fixpoint out_ruled_of (cell_x cell_y : nat) (dx dy : list string)
  : outcome (list string) :=
  match dy with
  | [] => Ret []
  | word_y :: rest =>
      match any_match word_y cell_y cell_x dx with
      | Ret found =>
          match out_ruled_of cell_x cell_y dx rest with
          | Ret out => Ret (if found then out else word_y :: out)
          | o => o
          end
      | Raise e => Raise e
      | OutOfFuel => OutOfFuel
      end
  end.

Definition is_nil {A : Type} (l : list A) : bool :=
  match l with [] => true | _ :: _ => false end.

Definition revise (c : Crossword) (x y : Var) (d : domains_t)
  : outcome bool * domains_t :=
  if mem_var y (neighbors c x) then
    match overlaps c x y with
    | None => (Raise TypeError, d)
    | Some (cell_x, cell_y) =>
        match dict_get d y with
        | None => (Raise KeyError, d)
        | Some dy =>
            match dict_get d x with
            | None => (Raise KeyError, d)
            | Some dx =>
                match out_ruled_of cell_x cell_y dx dy with
                | Ret out_ruled =>
                    (Ret (negb (is_nil out_ruled)),
                     dict_set d x (set_diff dx out_ruled))
                | Raise e => (Raise e, d)
                | OutOfFuel => (OutOfFuel, d)
                end
            end
        end
    end
  else (Ret false, d).

(** ** [ac3] *)

(** The work list [arcs] is a Python list used as a stack ([pop] takes the
    last element, [append] adds at the end).  It is kept here with its
    last element first: the head is what [arcs.pop()] returns. *)
Definition all_arcs (d : domains_t) : list arc :=
  flat_map (fun var1 =>
              map (fun var2 => (var1, var2))
                  (filter (fun var2 => negb (Var_eqb var1 var2)) (dict_keys d)))
           (dict_keys d).

(** [for Z in self.crossword.neighbors(x) - {y}: arcs.append((Z, x))] *)
Definition push_neighbors (c : Crossword) (x y : Var) (stack : list arc)
  : list arc :=
  fold_left (fun st Z => (Z, x) :: st)
            (filter (fun Z => negb (Var_eqb Z y)) (neighbors c x))
            stack.

Inductive ac3_step_result : Type :=
| Stop (o : outcome bool)
| Continue (stack : list arc).

(** One turn of [while arcs: ...]. *)
Definition ac3_step (c : Crossword) (stack : list arc) (d : domains_t)
  : ac3_step_result * domains_t :=
  match stack with
  | [] => (Stop (Ret true), d)
  | (x, y) :: rest =>
      match revise c x y d with
      | (Ret true, d') =>
          match dict_get d' x with
          | None => (Stop (Raise KeyError), d')
          | Some [] => (Stop (Ret false), d')
          | Some (_ :: _) => (Continue (push_neighbors c x y rest), d')
          end
      | (Ret false, d') => (Continue rest, d')
      | (o, d') => (Stop o, d')
      end
  end.

Fixpoint ac3_loop (c : Crossword) (fuel : nat) (stack : list arc)
  (d : domains_t) : outcome bool * domains_t :=
  match fuel with
  | 0 => (OutOfFuel, d)
  | S fuel' =>
      match ac3_step c stack d with
      | (Stop o, d') => (o, d')
      | (Continue stack', d') => ac3_loop c fuel' stack' d'
      end
  end.

(** [if not arcs:] holds for [None] and for the empty list alike. *)
Definition initial_stack (arcs : option (list arc)) (d : domains_t)
  : list arc :=
  match arcs with
  | None | Some [] => rev (all_arcs d)
  | Some l => rev l
  end.

Definition ac3 (c : Crossword) (fuel : nat) (arcs : option (list arc))
  (d : domains_t) : outcome bool * domains_t :=
  ac3_loop c fuel (initial_stack arcs d) d.

(** ** [assignment_complete] *)

Definition assignment_complete (d : domains_t) (a : assignment_t) : bool :=
  forallb (fun var => dict_mem a var) (dict_keys d).

(** ** [consistent] *)

(** The loop [for word2 in self.crossword.neighbors(word1)]. *)
Fixpoint consistent_neighbors (c : Crossword) (a : assignment_t)
  (word1 : Var) (w1 : string) (ns : list Var) : outcome bool :=
  match ns with
  | [] => Ret true
  | word2 :: rest =>
      match dict_get a word2 with
      | None => consistent_neighbors c a word1 w1 rest
      | Some w2 =>
          match overlaps c word1 word2 with
          | None => Raise TypeError
          | Some (cell1, cell2) =>
              match String.get cell1 w1 with
              | None => Raise IndexError
              | Some ch1 =>
                  match String.get cell2 w2 with
                  | None => Raise IndexError
                  | Some ch2 =>
                      if Ascii.eqb ch1 ch2
                      then consistent_neighbors c a word1 w1 rest
                      else Ret false
                  end
              end
          end
      end
  end.

(** The loop [for word1 in assignment]. *)
Fixpoint consistent_vars (c : Crossword) (a entries : assignment_t)
  : outcome bool :=
  match entries with
  | [] => Ret true
  | (word1, w1) :: rest =>
      if negb (String.length w1 =? var_length word1) then Ret false
      else
        match consistent_neighbors c a word1 w1 (neighbors c word1) with
        | Ret true => consistent_vars c a rest
        | o => o
        end
  end.

Definition consistent (c : Crossword) (a : assignment_t) : outcome bool :=
  let used_values := nodup string_dec (dict_values a) in
  if negb (List.length used_values =? List.length a) then Ret false
  else consistent_vars c a a.

(** ** Python's [sorted]: a stable sort by key *)

Section Sorted.
Context {A K : Type}.
Variable key : A -> K.
Variable key_lt : K -> K -> bool.

(** [x] goes before the first element whose key is not smaller. *)
Fixpoint sorted_insert (x : A) (l : list A) : list A :=
  match l with
  | [] => [x]
  | y :: r =>
      if key_lt (key y) (key x) then y :: sorted_insert x r else x :: y :: r
  end.

Definition sorted (l : list A) : list A := fold_right sorted_insert [] l.
End Sorted.

(** ** [order_domain_values] *)

(** [value in assignment] tests the keys of the dictionary, which are
    variables; [value] is a word, so the test never holds. *)
Definition word_in_keys (value : string) (a : assignment_t) : bool := false.

(** The two nested loops over the neighbours and their domains.  Their
    body starts with [self.crossword.overlap[value][neighbor]]; the
    puzzle model has no member [overlap] (its table is [overlaps], keyed
    by a pair of variables), so the first turn of the inner loop raises
    [AttributeError]. *)
Fixpoint order_neighbors (d : domains_t) (ns : list Var) : outcome nat :=
  match ns with
  | [] => Ret 0
  | neighbor :: rest =>
      match dict_get d neighbor with
      | None => Raise KeyError
      | Some [] => order_neighbors d rest
      | Some (_ :: _) => Raise AttributeError
      end
  end.

(** [for variable in self.domains: if value in self.domains[variable]] *)
Definition count_domains (d : domains_t) (value : string) : nat :=
  List.length (filter (fun kv => mem_word value (snd kv)) d).

Fixpoint order_counts (d : domains_t) (a : assignment_t) (ns : list Var)
  (vals : list string) : outcome (list (string * nat)) :=
  match vals with
  | [] => Ret []
  | value :: rest =>
      if word_in_keys value a then order_counts d a ns rest
      else
        match order_neighbors d ns with
        | Ret k =>
            match order_counts d a ns rest with
            | Ret l => Ret ((value, k + count_domains d value) :: l)
            | o => o
            end
        | Raise e => Raise e
        | OutOfFuel => OutOfFuel
        end
  end.

Definition order_domain_values (c : Crossword) (d : domains_t) (var : Var)
  (a : assignment_t) : outcome (list string) :=
  match dict_get d var with
  | None => Raise KeyError
  | Some vals =>
      match order_counts d a (neighbors c var) vals with
      | Ret values => Ret (map fst (sorted snd Nat.ltb values))
      | Raise e => Raise e
      | OutOfFuel => OutOfFuel
      end
  end.

(** ** [select_unassigned_variable] *)

Definition select_key (c : Crossword) (d : domains_t) (x : Var) : nat * Z :=
  (List.length (dom d x), (- Z.of_nat (List.length (neighbors c x)))%Z).

(** Python's order on pairs. *)
Definition pair_lt (p q : nat * Z) : bool :=
  (fst p <? fst q) || ((fst p =? fst q) && (snd p <? snd q)%Z).

Definition unassigned (d : domains_t) (a : assignment_t) : list Var :=
  filter (fun v => negb (dict_mem a v)) (dict_keys d).

Definition select_unassigned_variable (c : Crossword) (d : domains_t)
  (a : assignment_t) : outcome Var :=
  match sorted (select_key c d) pair_lt (unassigned d a) with
  | [] => Raise IndexError
  | v :: _ => Ret v
  end.

(** ** [backtrack] and [solve] *)

(** What a run of the search does, newest first: every invocation of
    [backtrack] and every value it assigns. *)
Inductive event : Type :=
| Call
| Try (var : Var) (value : string).

Record state : Type := mkState {
  domains : domains_t;
  assignment : assignment_t;
  trace : list event
}.

Definition with_domains (st : state) (d : domains_t) : state :=
  mkState d (assignment st) (trace st).
Definition with_assignment (st : state) (a : assignment_t) : state :=
  mkState (domains st) a (trace st).
Definition log (e : event) (st : state) : state :=
  mkState (domains st) (assignment st) (e :: trace st).

(** [[(other_var, var) for other_var in self.crossword.neighbors(var)]] *)
Definition scoped_arcs (c : Crossword) (var : Var) : list arc :=
  map (fun other_var => (other_var, var)) (neighbors c var).

(** [del assignment[var]], then the next turn of the loop. *)
Definition undo (var : Var) (st : state)
  (next : state -> outcome (option assignment_t) * state)
  : outcome (option assignment_t) * state :=
  if dict_mem (assignment st) var
  then next (with_assignment st (dict_del (assignment st) var))
  else (Raise KeyError, st).

(** The loop [for value in self.domains[var]].  The iterator was made
    over the set object when the loop started: [size] is the size the set
    had then and [vals] what is left to visit.  Every step of the
    iterator, the last one included, raises [RuntimeError] when the set
    has changed size.  [rec] is the recursive call of [backtrack]. *)
Fixpoint backtrack_values (c : Crossword)
  (rec : state -> outcome (option assignment_t) * state)
  (fuel : nat) (var : Var) (size : nat) (vals : list string) (st : state)
  {struct vals} : outcome (option assignment_t) * state :=
  if negb (List.length (dom (domains st) var) =? size)
  then (Raise RuntimeError, st)
  else
    match vals with
    | [] => (Ret None, st)
    | value :: rest =>
        let st1 :=
          log (Try var value)
              (with_assignment st (dict_set (assignment st) var value)) in
        match consistent c (assignment st1) with
        | Ret true =>
            match ac3 c fuel (Some (scoped_arcs c var)) (domains st1) with
            | (Ret _, d2) =>
                match rec (with_domains st1 d2) with
                | (Ret (Some ((_ :: _) as result)), st3) =>
                    (Ret (Some result), st3)
                | (Ret _, st3) =>
                    undo var st3 (backtrack_values c rec fuel var size rest)
                | (o, st3) => (o, st3)
                end
            | (Raise e, d2) => (Raise e, with_domains st1 d2)
            | (OutOfFuel, d2) => (OutOfFuel, with_domains st1 d2)
            end
        | Ret false =>
            undo var st1 (backtrack_values c rec fuel var size rest)
        | Raise e => (Raise e, st1)
        | OutOfFuel => (OutOfFuel, st1)
        end
    end.

Fixpoint backtrack (c : Crossword) (fuel : nat) (st : state)
  : outcome (option assignment_t) * state :=
  match fuel with
  | 0 => (OutOfFuel, st)
  | S fuel' =>
      let st := log Call st in
      if assignment_complete (domains st) (assignment st)
      then (Ret (Some (assignment st)), st)
      else
        match select_unassigned_variable c (domains st) (assignment st) with
        | Ret var =>
            match dict_get (domains st) var with
            | None => (Raise KeyError, st)
            | Some vals =>
                backtrack_values c (backtrack c fuel') fuel' var
                                 (List.length vals) vals st
            end
        | Raise e => (Raise e, st)
        | OutOfFuel => (OutOfFuel, st)
        end
  end.

Definition solve (c : Crossword) (fuel : nat)
  : outcome (option assignment_t) * state :=
  match enforce_node_consistency c (init_domains c) with
  | (Ret _, d1) =>
      match ac3 c fuel None d1 with
      | (Ret _, d2) => backtrack c fuel (mkState d2 [] [])
      | (Raise e, d2) => (Raise e, mkState d2 [] [])
      | (OutOfFuel, d2) => (OutOfFuel, mkState d2 [] [])
      end
  | (Raise e, d1) => (Raise e, mkState d1 [] [])
  | (OutOfFuel, d1) => (OutOfFuel, mkState d1 [] [])
  end.

(** The words that node consistency keeps for [v]. *)
Definition fits (v : Var) (w : string) : bool :=
  String.length w =? var_length v.

(** ** The properties of the specification, in its own words *)

(** A total assignment that satisfies every constraint: each variable has
    a word, the words are pairwise distinct, each has the length of its
    variable, and crossing variables agree on the shared cell. *)
Definition valid_total (c : Crossword) (a : assignment_t) : Prop :=
  (forall v, In v (variables c) -> exists w, dict_get a v = Some w)
  /\ NoDup (dict_values a)
  /\ (forall v w, dict_get a v = Some w -> String.length w = var_length v)
  /\ (forall v1 v2 w1 w2 i j,
        In v1 (variables c) -> In v2 (variables c) ->
        dict_get a v1 = Some w1 -> dict_get a v2 = Some w2 ->
        overlaps c v1 v2 = Some (i, j) ->
        exists ch, String.get i w1 = Some ch /\ String.get j w2 = Some ch).

(** A store [d'] reached from [d] by removals only: same keys, smaller
    domains. *)
Definition shrinks (d d' : domains_t) : Prop :=
  dict_keys d' = dict_keys d /\ forall v, incl (dom d' v) (dom d v).

(** Every assigned word comes from the vocabulary. *)
Definition from_vocabulary (c : Crossword) (a : assignment_t) : Prop :=
  forall v w, dict_get a v = Some w -> In w (words c).

(** Following the spec's words, [revise(x, y)] keeps in the domain of [x]
    the words [wx] for which some [wy] in the domain of [y] has
    [wx[ix] == wy[iy]], and removes the others. *)
Definition supported (ix iy : nat) (dy : list string) (wx : string) : bool :=
  existsb (fun wy =>
             match String.get ix wx, String.get iy wy with
             | Some a, Some b => Ascii.eqb a b
             | _, _ => false
             end) dy.

Definition revise_spec (c : Crossword) (x y : Var) (d : domains_t)
  : bool * domains_t :=
  match overlaps c x y with
  | None => (false, d)
  | Some (ix, iy) =>
      let kept := filter (supported ix iy (dom d y)) (dom d x) in
      (negb (List.length kept =? List.length (dom d x)), dict_set d x kept)
  end.

(** Following the spec's words, the least-constraining-value order: the
    values of the domain of [var], ascending by the number of values they
    rule out in the domains of the unassigned neighbours. *)
Definition rules_out (c : Crossword) (d : domains_t) (a : assignment_t)
  (var : Var) (value : string) : nat :=
  list_sum
    (map (fun n =>
            match overlaps c var n with
            | None => 0
            | Some (i1, i2) =>
                List.length
                  (filter (fun other =>
                             match String.get i1 value, String.get i2 other with
                             | Some p, Some q => negb (Ascii.eqb p q)
                             | _, _ => true
                             end) (dom d n))
            end)
         (filter (fun n => negb (dict_mem a n)) (neighbors c var))).

Definition lcv_order_spec (c : Crossword) (d : domains_t) (a : assignment_t)
  (var : Var) : list string :=
  sorted (rules_out c d a var) Nat.ltb (dom d var).

(** The values the search assigned to [var] in a piece of trace, oldest
    first. *)
Definition tried_values (var : Var) (tr : list event) : list string :=
  rev (flat_map (fun e =>
                   match e with
                   | Try v w => if Var_eqb v var then [w] else []
                   | Call => []
                   end) tr).

(** The number of invocations of [backtrack] in a trace. *)
Definition calls (tr : list event) : nat :=
  List.length (filter (fun e => match e with Call => true | _ => false end) tr).

(** Runs of the loop of [ac3] that have not returned yet: each step pops
    an arc whose revision did not empty a domain. *)
Inductive ac3_run (c : Crossword)
  : list arc -> domains_t -> list arc -> domains_t -> Prop :=
| ac3_run_refl : forall stack d, ac3_run c stack d stack d
| ac3_run_step : forall stack d stack1 d1 stack' d',
    ac3_step c stack d = (Continue stack1, d1) ->
    ac3_run c stack1 d1 stack' d' ->
    ac3_run c stack d stack' d'.

(** [n] continuing steps of the loop of [ac3], when there are that many. *)
Fixpoint ac3_steps (c : Crossword) (n : nat) (stack : list arc)
  (d : domains_t) : option (list arc * domains_t) :=
  match n with
  | 0 => Some (stack, d)
  | S n' =>
      match ac3_step c stack d with
      | (Continue stack', d') => ac3_steps c n' stack' d'
      | (Stop _, _) => None
      end
  end.

(** ** Invariants of the search *)

(** The values tried in [new] are for variables that [a] leaves
    unassigned. *)
Definition fresh_tries (a : assignment_t) (new : list event) : Prop :=
  forall v w, In (Try v w) new -> dict_get a v = None.

(** What holds of a call of [backtrack] started in [st], however it ends:
    the store only shrinks, the trace only grows, the assignment is back
    to what it was when the call returns [None], and a returned
    assignment is the final one, complete, and was either complete on
    entry or checked by [consistent]. *)
Definition search_post (c : Crossword) (st : state)
  (r : outcome (option assignment_t) * state) : Prop :=
  shrinks (domains st) (domains (snd r))
  /\ (exists new,
        trace (snd r) = new ++ trace st /\ fresh_tries (assignment st) new)
  /\ match fst r with
     | Ret None => assignment (snd r) = assignment st
     | Ret (Some a) =>
         a = assignment (snd r)
         /\ assignment_complete (domains st) a = true
         /\ (a = assignment st \/ consistent c a = Ret true)
     | _ => True
     end.

(** The same for the loop over the values [vals] of [var], with the
    values it tried. *)
Definition loop_post (c : Crossword) (var : Var) (vals : list string)
  (st : state) (r : outcome (option assignment_t) * state) : Prop :=
  shrinks (domains st) (domains (snd r))
  /\ (exists new,
        trace (snd r) = new ++ trace st
        /\ fresh_tries (assignment st) new
        /\ (exists rest, vals = tried_values var new ++ rest)
        /\ (fst r = Ret None -> tried_values var new = vals))
  /\ match fst r with
     | Ret None => assignment (snd r) = assignment st
     | Ret (Some a) =>
         a = assignment (snd r)
         /\ assignment_complete (domains st) a = true
         /\ consistent c a = Ret true
     | _ => True
     end.

(** ** Puzzles used below *)

Module Puzzles.

(** Two crossing slots of length 2: the second cell of the across slot
    is the first cell of the down slot. *)
Definition x : Var := mkVar 0 0 ACROSS 2.
Definition y : Var := mkVar 0 1 DOWN 2.

Definition cross_overlaps (a b : Var) : option (nat * nat) :=
  if Var_eqb a x && Var_eqb b y then Some (1, 0)
  else if Var_eqb a y && Var_eqb b x then Some (0, 1)
  else None.

Definition chain : Crossword := mkCrossword [x; y] ["AB"; "BC"] cross_overlaps.
Definition mixed : Crossword :=
  mkCrossword [x; y] ["AB"; "BC"; "XYZ"] cross_overlaps.
Definition swap : Crossword := mkCrossword [x; y] ["AB"; "BA"] cross_overlaps.
Definition prune : Crossword :=
  mkCrossword [x; y] ["AB"; "BC"; "XA"] cross_overlaps.
(** The same puzzle with its set of variables iterated the other way. *)
Definition prune_rev : Crossword :=
  mkCrossword [y; x] ["AB"; "BC"; "XA"] cross_overlaps.

(** An across slot of length 2 and a down slot of length 3 that share
    their first cell. *)
Definition p : Var := mkVar 0 0 ACROSS 2.
Definition q : Var := mkVar 0 0 DOWN 3.

Definition corner_overlaps (a b : Var) : option (nat * nat) :=
  if Var_eqb a p && Var_eqb b q then Some (0, 0)
  else if Var_eqb a q && Var_eqb b p then Some (0, 0)
  else None.

Definition corner : Crossword :=
  mkCrossword [p; q] ["AB"; "CD"; "CEF"; "CGH"; "CIJ"] corner_overlaps.

(** A ring of four slots and a separate slot of length 5:
<<
    o o o . .
    o . o . .
    o o o o .
    o . o . .
    o . o . .
    o . o . .
    . . o . .
    . . . . .
    o o o o o
>>
    ([o] is a cell to fill, [.] a blocked one):
    across [ra] (row 0, length 3) and [rc] (row 2, length 4), down [rb]
    (column 0, length 6) and [rd] (column 2, length 7), and the across
    slot [lone] (row 8, length 5) that crosses nothing. *)
Definition ra : Var := mkVar 0 0 ACROSS 3.
Definition rb : Var := mkVar 0 0 DOWN 6.
Definition rc : Var := mkVar 2 0 ACROSS 4.
Definition rd : Var := mkVar 0 2 DOWN 7.
Definition lone : Var := mkVar 8 0 ACROSS 5.

Definition ring_table : list (arc * (nat * nat)) :=
  [ ((ra, rb), (0, 0)); ((rb, ra), (0, 0));
    ((ra, rd), (2, 0)); ((rd, ra), (0, 2));
    ((rc, rb), (0, 2)); ((rb, rc), (2, 0));
    ((rc, rd), (2, 2)); ((rd, rc), (2, 2)) ].

Definition ring_overlaps (a b : Var) : option (nat * nat) :=
  match find (fun e => Var_eqb a (fst (fst e)) && Var_eqb b (snd (fst e)))
             ring_table with
  | Some e => Some (snd e)
  | None => None
  end.

Definition ring : Crossword :=
  mkCrossword [ra; rb; rc; rd; lone]
              ["AAA"; "BBBBBB"; "CCCC"; "DDDDDDD"] ring_overlaps.

(** The states in which [solve] calls [backtrack] on [prune] and on
    [corner]. *)
Definition prune_entry : state :=
  mkState [(x, ["AB"; "BC"]); (y, ["AB"; "XA"])] [] [].
Definition prune_rev_entry : state :=
  mkState [(y, ["AB"; "XA"]); (x, ["AB"; "BC"])] [] [].
Definition corner_entry : state :=
  mkState [(p, ["AB"; "CD"]); (q, ["CEF"; "CGH"; "CIJ"])] [] [].

End Puzzles.

(** ** Well-formed puzzles and stores *)

(** The overlap indices of crossing variables are positions inside their
    words. *)
Definition overlaps_in_range (c : Crossword) : Prop :=
  forall x y i j,
    overlaps c x y = Some (i, j) -> i < var_length x /\ j < var_length y.

(** A store that has every variable of the puzzle and holds, for each
    key, vocabulary words of the length of the key. *)
Definition store_ok (c : Crossword) (d : domains_t) : Prop :=
  (forall v, In v (variables c) -> dict_mem d v = true)
  /\ (forall v ws w,
        dict_get d v = Some ws -> In w ws ->
        String.length w = var_length v /\ In w (words c)).

Definition assignment_fits (a : assignment_t) : Prop :=
  forall v w, dict_get a v = Some w -> String.length w = var_length v.

(** [word_y] has a partner in [dx]: a word with the same character at the
    crossing. *)
Definition partner (cell_x cell_y : nat) (dx : list string)
  (word_y : string) : Prop :=
  exists word_x ch,
    In word_x dx
    /\ String.get cell_y word_y = Some ch
    /\ String.get cell_x word_x = Some ch.

(** The constraints on a partial assignment: distinct words, of the
    length of their variable, that agree with the words of the assigned
    neighbours. *)
Definition partial_valid (c : Crossword) (a : assignment_t) : Prop :=
  NoDup (dict_values a)
  /\ (forall v w, In (v, w) a -> String.length w = var_length v)
  /\ (forall v1 w1 v2 w2,
        In (v1, w1) a -> In v2 (neighbors c v1) -> dict_get a v2 = Some w2 ->
        exists i j ch,
          overlaps c v1 v2 = Some (i, j)
          /\ String.get i w1 = Some ch /\ String.get j w2 = Some ch).

(** The assignment a call leaves extends the one it was given in [st],
    and the words it added come from the domains of the store [d0]. *)
Definition extends_from (d0 : domains_t) (st : state)
  (r : outcome (option assignment_t) * state) : Prop :=
  (forall v w,
     dict_get (assignment (snd r)) v = Some w ->
     dict_get (assignment st) v = Some w \/ In w (dom d0 v))
  /\ (forall v w,
        dict_get (assignment st) v = Some w ->
        dict_get (assignment (snd r)) v = Some w).

(** The only exception a call may end with is the [RuntimeError] of a
    set that changed size while the search was iterating over it. *)
Definition raises_only_runtime_error {A : Type} (o : outcome A) : Prop :=
  forall e, o = Raise e -> e = RuntimeError.

(** ** [letter_grid] *)

(** The 2D array of [letter_grid]: rows of cells, [None] for a cell
    without a letter.  [height] and [width] are the attributes of the
    puzzle that give its size. *)
Definition grid : Type := list (list (option ascii)).

(** [l[n] = x] on a Python list; [None] stands for [IndexError]. *)
Fixpoint list_set {A : Type} (l : list A) (n : nat) (x : A)
  : option (list A) :=
  match l, n with
  | [], _ => None
  | _ :: r, 0 => Some (x :: r)
  | y :: r, S n' =>
      match list_set r n' x with
      | Some r' => Some (y :: r')
      | None => None
      end
  end.

(** [letters[i][j] = ch]: the row [letters[i]] is updated in place. *)
Definition grid_set (g : grid) (i j : nat) (ch : ascii) : outcome grid :=
  match nth_error g i with
  | None => Raise IndexError
  | Some row =>
      match list_set row j (Some ch) with
      | None => Raise IndexError
      | Some row' =>
          match list_set g i row' with
          | Some g' => Ret g'
          | None => Raise IndexError
          end
      end
  end.

(** The cell of the [k]-th letter of a variable. *)
Definition cell_of (v : Var) (k : nat) : nat * nat :=
  (var_i v + match var_direction v with DOWN => k | ACROSS => 0 end,
   var_j v + match var_direction v with ACROSS => k | DOWN => 0 end).

(** The loop [for k in range(len(word))], from the letter of index [k]
    on. *)
Fixpoint write_word (v : Var) (k : nat) (word : string) (g : grid)
  : outcome grid :=
  match word with
  | EmptyString => Ret g
  | String ch rest =>
      match grid_set g (fst (cell_of v k)) (snd (cell_of v k)) ch with
      | Ret g' => write_word v (S k) rest g'
      | o => o
      end
  end.

(** The loop [for variable, word in assignment.items()]. *)
Fixpoint write_all (entries : assignment_t) (g : grid) : outcome grid :=
  match entries with
  | [] => Ret g
  | (variable, word) :: rest =>
      match write_word variable 0 word g with
      | Ret g' => write_all rest g'
      | o => o
      end
  end.

Definition letter_grid (height width : nat) (a : assignment_t)
  : outcome grid :=
  write_all a (repeat (repeat None width) height).

(** The content of a cell of a grid; [None] also outside the grid. *)
Definition cell_at (g : grid) (i j : nat) : option ascii :=
  match nth_error g i with
  | Some row => match nth_error row j with Some c => c | None => None end
  | None => None
  end.

Definition well_shaped (height width : nat) (g : grid) : Prop :=
  List.length g = height /\ Forall (fun row => List.length row = width) g.

(** The letters that an assignment puts in a cell. *)
Definition letter_in (a : assignment_t) (i j : nat) (ch : ascii) : Prop :=
  exists v word k,
    In (v, word) a /\ cell_of v k = (i, j) /\ String.get k word = Some ch.

(** Every letter of every word falls inside the grid. *)
Definition inside (height width : nat) (a : assignment_t) : Prop :=
  forall i j ch, letter_in a i j ch -> i < height /\ j < width.

(** The words agree wherever their slots share a cell. *)
Definition agree (a : assignment_t) : Prop :=
  forall i j ch1 ch2, letter_in a i j ch1 -> letter_in a i j ch2 -> ch1 = ch2.

(** The writes of [letter_grid] in the order it makes them. *)
Fixpoint word_writes (v : Var) (k : nat) (word : string)
  : list (nat * nat * ascii) :=
  match word with
  | EmptyString => []
  | String ch rest => (cell_of v k, ch) :: word_writes v (S k) rest
  end.

Definition all_writes (a : assignment_t) : list (nat * nat * ascii) :=
  flat_map (fun e => word_writes (fst e) 0 (snd e)) a.

Fixpoint apply_writes (ws : list (nat * nat * ascii)) (g : grid)
  : outcome grid :=
  match ws with
  | [] => Ret g
  | (i, j, ch) :: rest =>
      match grid_set g i j ch with
      | Ret g' => apply_writes rest g'
      | o => o
      end
  end.

(** ** More puzzles *)

Module Grids.

(** Two slots that do not cross. *)
Definition top : Var := mkVar 0 0 ACROSS 2.
Definition low : Var := mkVar 2 0 ACROSS 3.

Definition apart : Crossword :=
  mkCrossword [top; low] ["AB"; "CD"; "EFG"] (fun _ _ => None).

(** Three slots of length 3 in a row:
<<
    o o o
    o . .
    o o o
>>
    the down slot [s1] shares its first cell with the across slot [s0]
    and its last cell with the across slot [s2]. *)
Definition s0 : Var := mkVar 0 0 ACROSS 3.
Definition s1 : Var := mkVar 0 0 DOWN 3.
Definition s2 : Var := mkVar 2 0 ACROSS 3.

Definition path_overlaps (a b : Var) : option (nat * nat) :=
  if Var_eqb a s0 && Var_eqb b s1 then Some (0, 0)
  else if Var_eqb a s1 && Var_eqb b s0 then Some (0, 0)
  else if Var_eqb a s1 && Var_eqb b s2 then Some (2, 0)
  else if Var_eqb a s2 && Var_eqb b s1 then Some (0, 2)
  else None.

Definition path : Crossword :=
  mkCrossword [s0; s1; s2] ["BCC"; "BBB"; "CCA"] path_overlaps.

(** The store of [Puzzles.ring] after node consistency. *)
Definition ring_store : domains_t :=
  [(Puzzles.ra, ["AAA"]); (Puzzles.rb, ["BBBBBB"]); (Puzzles.rc, ["CCCC"]);
   (Puzzles.rd, ["DDDDDDD"]); (Puzzles.lone, [])].

End Grids.

(** * Properties *)

(** ** Equality of variables and membership *)

Lemma Var_eqb_eq (a b : Var) : Var_eqb a b = true <-> a = b.
Proof.
  destruct a as [i1 j1 d1 l1], b as [i2 j2 d2 l2]; unfold Var_eqb; simpl.
  rewrite !andb_true_iff, !Nat.eqb_eq. split.
  - intros [[[-> ->] Hd] ->]. destruct d1, d2; simpl in Hd; congruence.
  - intros H; inversion H; subst. destruct d2; auto.
Qed.

Lemma Var_eqb_refl (a : Var) : Var_eqb a a = true.
Proof. now apply Var_eqb_eq. Qed.

Lemma Var_eqb_neq (a b : Var) : Var_eqb a b = false <-> a <> b.
Proof.
  rewrite <- Var_eqb_eq. destruct (Var_eqb a b); split; congruence.
Qed.

Lemma Var_eqb_sym (a b : Var) : Var_eqb a b = Var_eqb b a.
Proof.
  destruct (Var_eqb b a) eqn:E.
  - apply Var_eqb_eq in E; subst; apply Var_eqb_refl.
  - apply Var_eqb_neq. apply Var_eqb_neq in E. congruence.
Qed.

Lemma mem_var_In (v : Var) (l : list Var) : mem_var v l = true <-> In v l.
Proof.
  unfold mem_var. rewrite existsb_exists. split.
  - intros [u [Hu E]]. apply Var_eqb_eq in E. now subst.
  - intros H. exists v. split; [assumption | apply Var_eqb_refl].
Qed.

Lemma mem_word_In (w : string) (l : list string) :
  mem_word w l = true <-> In w l.
Proof.
  unfold mem_word. rewrite existsb_exists. split.
  - intros [u [Hu E]]. apply String.eqb_eq in E. now subst.
  - intros H. exists w. split; [assumption | apply String.eqb_refl].
Qed.

Lemma neighbors_In (c : Crossword) (v u : Var) :
  In u (neighbors c v) <->
  In u (variables c) /\ exists ij, overlaps c v u = Some ij.
Proof.
  unfold neighbors. rewrite filter_In. split.
  - intros [H E]. split; [assumption|].
    destruct (overlaps c v u) as [ij|]; [now exists ij | discriminate].
  - intros [H [ij E]]. rewrite E. now split.
Qed.

(** ** Dictionaries *)

Section DictFacts.
Context {V : Type}.
Implicit Types (d : list (Var * V)) (k : Var) (v : V).

Lemma dict_get_In d k v : dict_get d k = Some v -> In (k, v) d.
Proof.
  induction d as [|[k' v'] r IH]; simpl; [discriminate|].
  destruct (Var_eqb k k') eqn:E.
  - intros [= ->]. apply Var_eqb_eq in E. subst. now left.
  - intros H. right. now apply IH.
Qed.

Lemma dict_mem_get d k : dict_mem d k = true <-> exists v, dict_get d k = Some v.
Proof.
  unfold dict_mem, dict_keys, mem_var.
  induction d as [|[k' v'] r IH]; simpl.
  - split; [discriminate | intros [v H]; discriminate].
  - destruct (Var_eqb k k'); simpl; [|exact IH].
    split; [now exists v' | reflexivity].
Qed.

Lemma dict_mem_false d k : dict_mem d k = false <-> dict_get d k = None.
Proof.
  destruct (dict_mem d k) eqn:E.
  - apply dict_mem_get in E as [v E]. rewrite E. split; discriminate.
  - split; [intros _ | reflexivity].
    destruct (dict_get d k) eqn:G; [|reflexivity].
    assert (dict_mem d k = true) by (apply dict_mem_get; eauto). congruence.
Qed.

Lemma dict_get_set_same d k v : dict_get (dict_set d k v) k = Some v.
Proof.
  induction d as [|[k' v'] r IH]; simpl.
  - now rewrite Var_eqb_refl.
  - destruct (Var_eqb k k') eqn:E; simpl.
    + now rewrite Var_eqb_refl.
    + now rewrite E.
Qed.

Lemma dict_get_set_other d k k' v :
  k' <> k -> dict_get (dict_set d k v) k' = dict_get d k'.
Proof.
  intros N. induction d as [|[k0 v0] r IH]; simpl.
  - apply Var_eqb_neq in N. now rewrite N.
  - destruct (Var_eqb k k0) eqn:E; simpl.
    + apply Var_eqb_eq in E. subst k0.
      apply Var_eqb_neq in N. now rewrite N.
    + now rewrite IH.
Qed.

Lemma dict_keys_set d k v v0 :
  dict_get d k = Some v0 -> dict_keys (dict_set d k v) = dict_keys d.
Proof.
  unfold dict_keys. induction d as [|[k' v'] r IH]; simpl; [discriminate|].
  destruct (Var_eqb k k') eqn:E; simpl.
  - intros _. apply Var_eqb_eq in E. now subst.
  - intros H. now rewrite IH.
Qed.

Lemma dict_del_set_fresh d k v :
  dict_get d k = None -> dict_del (dict_set d k v) k = d.
Proof.
  induction d as [|[k' v'] r IH]; simpl.
  - now rewrite Var_eqb_refl.
  - destruct (Var_eqb k k') eqn:E; [discriminate|]. simpl. rewrite E.
    intros H. now rewrite IH.
Qed.

Lemma dict_mem_set d k k' v :
  dict_mem (dict_set d k v) k' = Var_eqb k' k || dict_mem d k'.
Proof.
  destruct (Var_eqb k' k) eqn:E; simpl.
  - apply Var_eqb_eq in E. subst. apply dict_mem_get.
    exists v. apply dict_get_set_same.
  - apply Var_eqb_neq in E.
    destruct (dict_mem d k') eqn:M.
    + apply dict_mem_get in M as [v0 M]. apply dict_mem_get. exists v0.
      now rewrite dict_get_set_other.
    + apply dict_mem_false in M. apply dict_mem_false.
      now rewrite dict_get_set_other.
Qed.
End DictFacts.

Lemma dom_set_same (d : domains_t) (x : Var) (ws : list string) :
  dom (dict_set d x ws) x = ws.
Proof. unfold dom. now rewrite dict_get_set_same. Qed.

Lemma dom_set_other (d : domains_t) (x z : Var) (ws : list string) :
  z <> x -> dom (dict_set d x ws) z = dom d z.
Proof. intros N. unfold dom. now rewrite dict_get_set_other. Qed.

Lemma set_diff_incl (s t : list string) : incl (set_diff s t) s.
Proof. intros w H. unfold set_diff in H. now apply filter_In in H. Qed.

Lemma set_remove_incl (w : string) (s : list string) : incl (set_remove w s) s.
Proof. intros u H. unfold set_remove in H. now apply filter_In in H. Qed.

Lemma shrinks_refl (d : domains_t) : shrinks d d.
Proof. split; [reflexivity | intros v; apply incl_refl]. Qed.

Lemma shrinks_trans (d1 d2 d3 : domains_t) :
  shrinks d1 d2 -> shrinks d2 d3 -> shrinks d1 d3.
Proof.
  intros [K1 I1] [K2 I2]. split; [congruence|].
  intros v. eapply incl_tran; [apply I2 | apply I1].
Qed.

Lemma shrinks_set (d : domains_t) (x : Var) (dx ws : list string) :
  dict_get d x = Some dx -> incl ws dx -> shrinks d (dict_set d x ws).
Proof.
  intros G I. split; [eapply dict_keys_set; eassumption|].
  intros v. destruct (Var_eqb v x) eqn:E.
  - apply Var_eqb_eq in E. subst v. rewrite dom_set_same.
    unfold dom. now rewrite G.
  - apply Var_eqb_neq in E. rewrite dom_set_other by assumption.
    apply incl_refl.
Qed.

Create HintDb csp.
#[local] Hint Resolve shrinks_refl set_diff_incl set_remove_incl : csp.

(** ** [revise] *)

(** What a call of [revise] can do to the store: nothing, or replace the
    domain of [x] by the part of it outside [out_ruled]. *)
Lemma revise_store (c : Crossword) (x y : Var) (d : domains_t) :
  snd (revise c x y d) = d
  \/ exists dx out,
       dict_get d x = Some dx
       /\ snd (revise c x y d) = dict_set d x (set_diff dx out).
Proof.
  unfold revise.
  destruct (mem_var y (neighbors c x)); [|now left].
  destruct (overlaps c x y) as [[cell_x cell_y]|]; [|now left].
  destruct (dict_get d y) as [dy|]; [|now left].
  destruct (dict_get d x) as [dx|] eqn:G; [|now left].
  destruct (out_ruled_of cell_x cell_y dx dy) as [out|e|]; try now left.
  right. exists dx, out. now split.
Qed.

Lemma revise_shrinks (c : Crossword) (x y : Var) (d : domains_t) :
  shrinks d (snd (revise c x y d)).
Proof.
  destruct (revise_store c x y d) as [-> | [dx [out [G ->]]]]; auto with csp.
  eapply shrinks_set; eauto with csp.
Qed.

Lemma revise_other (c : Crossword) (x y : Var) (d : domains_t) (z : Var) :
  z <> x -> dict_get (snd (revise c x y d)) z = dict_get d z.
Proof.
  intros N.
  destruct (revise_store c x y d) as [-> | [dx [out [G ->]]]]; [reflexivity|].
  now apply dict_get_set_other.
Qed.

(** A revision that reports a change leaves [x] in the store. *)
Lemma revise_true_get (c : Crossword) (x y : Var) (d d' : domains_t) :
  revise c x y d = (Ret true, d') -> exists ws, dict_get d' x = Some ws.
Proof.
  unfold revise.
  destruct (mem_var y (neighbors c x)); [|discriminate].
  destruct (overlaps c x y) as [[cell_x cell_y]|]; [|discriminate].
  destruct (dict_get d y) as [dy|]; [|discriminate].
  destruct (dict_get d x) as [dx|]; [|discriminate].
  destruct (out_ruled_of cell_x cell_y dx dy) as [out|e|]; try discriminate.
  intros [= _ <-]. eexists. apply dict_get_set_same.
Qed.

(** C10: [revise(x, y)] leaves the domain of every variable other than
    [x] as it was, whatever it returns or raises; with [z := y] this is
    the domain it only reads. *)
Theorem revise_frame (c : Crossword) (x y : Var) (d : domains_t) (z : Var) :
  z <> x -> dict_get (snd (revise c x y d)) z = dict_get d z.
Proof. apply revise_other. Qed.

Lemma revise_frame_witness :
  Puzzles.y <> Puzzles.x
  /\ dict_get (snd (revise Puzzles.chain Puzzles.x Puzzles.y
                           (init_domains Puzzles.chain))) Puzzles.y
     = dict_get (init_domains Puzzles.chain) Puzzles.y.
Proof.
  split; [discriminate|].
  apply (revise_frame Puzzles.chain Puzzles.x Puzzles.y
                      (init_domains Puzzles.chain) Puzzles.y).
  discriminate.
Defined.

(** When a variable does not overlap itself, [revise(x, x)] changes
    nothing either. *)
(** When [x] and [y] do not overlap, [revise(x, y)] is a no-op. *)
Lemma revise_no_overlap (c : Crossword) (x y : Var) (d : domains_t) :
  overlaps c x y = None -> revise c x y d = (Ret false, d).
Proof.
  intros H. unfold revise.
  destruct (mem_var y (neighbors c x)) eqn:M; [|reflexivity].
  apply mem_var_In, neighbors_In in M as [_ [ij E]]. congruence.
Qed.

(** ** [ac3] *)

Lemma ac3_step_shrinks (c : Crossword) (stack : list arc) (d : domains_t) :
  shrinks d (snd (ac3_step c stack d)).
Proof.
  unfold ac3_step. destruct stack as [|[x y] rest]; simpl; auto with csp.
  pose proof (revise_shrinks c x y d) as H.
  destruct (revise c x y d) as [[[|]|e|] d1]; simpl in *; try assumption.
  destruct (dict_get d1 x) as [[|w ws]|]; assumption.
Qed.

Lemma ac3_loop_shrinks (c : Crossword) (fuel : nat) :
  forall stack d, shrinks d (snd (ac3_loop c fuel stack d)).
Proof.
  induction fuel as [|fuel IH]; intros stack d; simpl; auto with csp.
  pose proof (ac3_step_shrinks c stack d) as H.
  destruct (ac3_step c stack d) as [[o|stack'] d1]; simpl in *; [assumption|].
  eapply shrinks_trans; [exact H | apply IH].
Qed.

Lemma ac3_shrinks (c : Crossword) (fuel : nat) (arcs : option (list arc))
  (d : domains_t) : shrinks d (snd (ac3 c fuel arcs d)).
Proof. apply ac3_loop_shrinks. Qed.

(** C8: after a call of [ac3], with or without an explicit list of arcs
    and however the call ends, the domain of every variable is included
    in the domain it had before the call. *)
Theorem ac3_monotone (c : Crossword) (fuel : nat) (arcs : option (list arc))
  (d : domains_t) (v : Var) :
  incl (dom (snd (ac3 c fuel arcs d)) v) (dom d v).
Proof. apply ac3_shrinks. Qed.

(** The steps that keep the loop going are exactly those whose revision
    changed nothing, or reported a change and left a non-empty domain. *)
Lemma ac3_step_continue (c : Crossword) (x y : Var) (rest stack' : list arc)
  (d d' : domains_t) :
  ac3_step c ((x, y) :: rest) d = (Continue stack', d') <->
  (revise c x y d = (Ret false, d') /\ stack' = rest)
  \/ (revise c x y d = (Ret true, d') /\ dom d' x <> []
      /\ stack' = push_neighbors c x y rest).
Proof.
  unfold ac3_step, dom.
  destruct (revise c x y d) as [[[|]|e|] d1]; simpl.
  - destruct (dict_get d1 x) as [[|w ws]|] eqn:G; split.
    + discriminate.
    + intros [[H _] | [H [N _]]]; [discriminate|].
      injection H as <-. rewrite G in N. congruence.
    + intros [= <- <-]. right. rewrite G. repeat split. discriminate.
    + intros [[H _] | [H [_ ->]]]; [discriminate|]. congruence.
    + discriminate.
    + intros [[H _] | [H [N _]]]; [discriminate|].
      injection H as <-. rewrite G in N. congruence.
  - split.
    + intros [= <- <-]. now left.
    + intros [[H ->] | [H _]]; congruence.
  - split; [discriminate | intros [[H _] | [H _]]; discriminate].
  - split; [discriminate | intros [[H _] | [H _]]; discriminate].
Qed.

Lemma ac3_step_stop (c : Crossword) (stack : list arc) (b : bool)
  (d d' : domains_t) :
  ac3_step c stack d = (Stop (Ret b), d') <->
  (b = true /\ stack = [] /\ d' = d)
  \/ (b = false /\ exists x y rest,
        stack = (x, y) :: rest /\ revise c x y d = (Ret true, d')
        /\ dom d' x = []).
Proof.
  unfold ac3_step. destruct stack as [|[x y] rest].
  - split.
    + intros [= <- <-]. now left.
    + intros [[-> [_ ->]] | [_ [x [y [rest [H _]]]]]]; [reflexivity|discriminate].
  - destruct (revise c x y d) as [[[|]|e|] d1] eqn:R.
    + pose proof (revise_true_get _ _ _ _ _ R) as [ws G].
      unfold dom. rewrite G. destruct ws as [|w ws]; split.
      * intros [= <- <-]. right. split; [reflexivity|].
        exists x, y, rest. rewrite G. now repeat split.
      * intros [[_ [H _]] | [-> [x0 [y0 [r0 [E [H _]]]]]]]; [discriminate|].
        injection E as <- <- <-. congruence.
      * discriminate.
      * intros [[_ [H _]] | [-> [x0 [y0 [r0 [E [H N]]]]]]]; [discriminate|].
        injection E as <- <- <-. rewrite R in H. injection H as <-.
        rewrite G in N. discriminate.
    + split; [discriminate|].
      intros [[_ [H _]] | [-> [x0 [y0 [r0 [E [H _]]]]]]]; [discriminate|].
      injection E as <- <- <-. congruence.
    + split; [discriminate|].
      intros [[_ [H _]] | [-> [x0 [y0 [r0 [E [H _]]]]]]]; [discriminate|].
      injection E as <- <- <-. congruence.
    + split; [discriminate|].
      intros [[_ [H _]] | [-> [x0 [y0 [r0 [E [H _]]]]]]]; [discriminate|].
      injection E as <- <- <-. congruence.
Qed.

(** The loop returns [b] iff a run of continuing steps leads to a step
    that stops with [b]. *)
Lemma ac3_loop_returns (c : Crossword) (b : bool) (stack : list arc)
  (d d' : domains_t) :
  (exists fuel, ac3_loop c fuel stack d = (Ret b, d')) <->
  exists stack1 d1,
    ac3_run c stack d stack1 d1 /\ ac3_step c stack1 d1 = (Stop (Ret b), d').
Proof.
  split.
  - intros [fuel H]. revert stack d H.
    induction fuel as [|fuel IH]; intros stack d; simpl; [discriminate|].
    destruct (ac3_step c stack d) as [[o|stack'] d1] eqn:St.
    + intros [= -> ->]. exists stack, d. split; [constructor | assumption].
    + intros H. destruct (IH _ _ H) as [s1 [d2 [R E]]].
      exists s1, d2. split; [econstructor; eassumption | assumption].
  - intros [stack1 [d1 [R E]]].
    induction R as [stack d | stack d s1 d1 s2 d2 St R IH].
    + exists 1. simpl. now rewrite E.
    + destruct (IH E) as [fuel H]. exists (S fuel). simpl. now rewrite St.
Qed.

(** C7: [ac3] returns [False] exactly when a revision reports a change
    and leaves the revised domain empty, at once: the store it leaves is
    the store of that revision and the arcs still on the work list are
    not processed.  It returns [True] exactly when the work list drains
    by steps none of which emptied a domain. *)
Theorem ac3_result (c : Crossword) (arcs : option (list arc))
  (d d' : domains_t) :
  ((exists fuel, ac3 c fuel arcs d = (Ret false, d')) <->
   exists x y rest d1,
     ac3_run c (initial_stack arcs d) d ((x, y) :: rest) d1
     /\ revise c x y d1 = (Ret true, d') /\ dom d' x = [])
  /\ ((exists fuel, ac3 c fuel arcs d = (Ret true, d')) <->
      ac3_run c (initial_stack arcs d) d [] d').
Proof.
  unfold ac3. split.
  - rewrite ac3_loop_returns. split.
    + intros [s1 [d1 [R E]]].
      apply ac3_step_stop in E as [[E _] | [_ [x [y [rest [-> [E N]]]]]]];
        [discriminate|].
      now exists x, y, rest, d1.
    + intros [x [y [rest [d1 [R [E N]]]]]].
      exists ((x, y) :: rest), d1. split; [assumption|].
      apply ac3_step_stop. right. split; [reflexivity|].
      now exists x, y, rest.
  - rewrite ac3_loop_returns. split.
    + intros [s1 [d1 [R E]]].
      apply ac3_step_stop in E as [[_ [-> ->]] | [E _]];
        [assumption | discriminate].
    + intros R. exists [], d'. split; [assumption|].
      apply ac3_step_stop. now left.
Qed.

(** ** [enforce_node_consistency] *)

Lemma node_consistency_words_shrinks (v : Var) (ws : list string) :
  forall d, shrinks d (snd (node_consistency_words v ws d)).
Proof.
  induction ws as [|w rest IH]; intros d; simpl; auto with csp.
  destruct (String.length w =? var_length v); [apply IH|].
  destruct (dict_get d v) as [s|] eqn:G; simpl; auto with csp.
  destruct (mem_word w s); simpl; auto with csp.
  eapply shrinks_trans; [|apply IH].
  eapply shrinks_set; eauto with csp.
Qed.

Lemma node_consistency_vars_shrinks (c : Crossword) (vs : list Var) :
  forall d, shrinks d (snd (node_consistency_vars c vs d)).
Proof.
  induction vs as [|v rest IH]; intros d; simpl; auto with csp.
  pose proof (node_consistency_words_shrinks v (words c) d) as H.
  destruct (node_consistency_words v (words c) d) as [[[]|e|] d1];
    simpl in *; try assumption.
  eapply shrinks_trans; [exact H | apply IH].
Qed.

Lemma enforce_node_consistency_shrinks (c : Crossword) (d : domains_t) :
  shrinks d (snd (enforce_node_consistency c d)).
Proof. apply node_consistency_vars_shrinks. Qed.

Lemma init_domains_keys (c : Crossword) :
  dict_keys (init_domains c) = variables c.
Proof.
  unfold dict_keys, init_domains. rewrite map_map. simpl. apply map_id.
Qed.

(** ** [consistent] *)

Lemma nodup_length_le (l : list string) :
  List.length (nodup string_dec l) <= List.length l.
Proof.
  induction l as [|a l IH]; simpl; [lia|].
  destruct (in_dec string_dec a l); simpl; lia.
Qed.

Lemma nodup_length_NoDup (l : list string) :
  List.length (nodup string_dec l) = List.length l -> NoDup l.
Proof.
  induction l as [|a l IH]; simpl; [constructor|].
  destruct (in_dec string_dec a l) as [I|N]; simpl; intros H.
  - pose proof (nodup_length_le l). lia.
  - constructor; [assumption | apply IH; lia].
Qed.

Lemma consistent_neighbors_true (c : Crossword) (a : assignment_t)
  (word1 : Var) (w1 : string) (ns : list Var) :
  consistent_neighbors c a word1 w1 ns = Ret true ->
  forall word2 w2, In word2 ns -> dict_get a word2 = Some w2 ->
    exists cell1 cell2 ch,
      overlaps c word1 word2 = Some (cell1, cell2)
      /\ String.get cell1 w1 = Some ch /\ String.get cell2 w2 = Some ch.
Proof.
  induction ns as [|n rest IH]; simpl; [intros _ ? ? []|].
  intros H word2 w2 [<- | I] G.
  - rewrite G in H.
    destruct (overlaps c word1 n) as [[cell1 cell2]|]; try discriminate.
    destruct (String.get cell1 w1) as [ch1|] eqn:E1; try discriminate.
    destruct (String.get cell2 w2) as [ch2|] eqn:E2; try discriminate.
    destruct (Ascii.eqb ch1 ch2) eqn:E; try discriminate.
    apply Ascii.eqb_eq in E; subst ch2.
    now exists cell1, cell2, ch1.
  - apply IH; try assumption.
    destruct (dict_get a n) as [wn|]; [|assumption].
    destruct (overlaps c word1 n) as [[cell1 cell2]|]; try discriminate.
    destruct (String.get cell1 w1) as [ch1|]; try discriminate.
    destruct (String.get cell2 wn) as [ch2|]; try discriminate.
    destruct (Ascii.eqb ch1 ch2); [assumption | discriminate].
Qed.

Lemma consistent_vars_true (c : Crossword) (a entries : assignment_t) :
  consistent_vars c a entries = Ret true ->
  forall word1 w1, In (word1, w1) entries ->
    String.length w1 = var_length word1
    /\ consistent_neighbors c a word1 w1 (neighbors c word1) = Ret true.
Proof.
  induction entries as [|[k w] rest IH]; simpl; [intros _ ? ? []|].
  destruct (String.length w =? var_length k) eqn:L; simpl; [|discriminate].
  destruct (consistent_neighbors c a k w (neighbors c k)) as [[|]|e|] eqn:N;
    try discriminate.
  intros H word1 w1 [[= <- <-] | I].
  - apply Nat.eqb_eq in L. now split.
  - now apply IH.
Qed.

(** An assignment that passes [consistent] and covers every variable
    satisfies every constraint of the puzzle. *)
Lemma consistent_valid (c : Crossword) (a : assignment_t) :
  consistent c a = Ret true ->
  (forall v, In v (variables c) -> dict_mem a v = true) ->
  valid_total c a.
Proof.
  unfold consistent. intros H Hall.
  destruct (List.length (nodup string_dec (dict_values a)) =? List.length a)
    eqn:L; simpl in H; [|discriminate].
  apply Nat.eqb_eq in L.
  pose proof (consistent_vars_true c a a H) as Hv.
  repeat split.
  - intros v I. apply dict_mem_get. now apply Hall.
  - apply nodup_length_NoDup. rewrite L. unfold dict_values.
    now rewrite length_map.
  - intros v w G. apply dict_get_In in G. now apply Hv in G.
  - intros v1 v2 w1 w2 i j I1 I2 G1 G2 O.
    apply dict_get_In in G1. apply Hv in G1 as [_ N].
    destruct (consistent_neighbors_true c a v1 w1 _ N v2 w2)
      as [cell1 [cell2 [ch [O' [E1 E2]]]]]; try assumption.
    + apply neighbors_In. split; [assumption | now exists (i, j)].
    + rewrite O in O'. injection O' as <- <-. now exists ch.
Qed.

(** ** [sorted] and [select_unassigned_variable] *)

Lemma sorted_insert_In {A K : Type} (key : A -> K) (key_lt : K -> K -> bool)
  (x y : A) (l : list A) :
  In y (sorted_insert key key_lt x l) <-> y = x \/ In y l.
Proof.
  induction l as [|z r IH]; simpl.
  - split; [intros [<- | []]; now left | intros [-> | []]; now left].
  - destruct (key_lt (key z) (key x)); simpl.
    + rewrite IH. split; intros H; intuition congruence.
    + split; intros H; intuition congruence.
Qed.

Lemma sorted_In {A K : Type} (key : A -> K) (key_lt : K -> K -> bool)
  (y : A) (l : list A) : In y (sorted key key_lt l) <-> In y l.
Proof.
  induction l as [|x r IH]; simpl; [reflexivity|].
  rewrite sorted_insert_In, IH. split; intros H; intuition congruence.
Qed.

Lemma select_unassigned (c : Crossword) (d : domains_t) (a : assignment_t)
  (v : Var) :
  select_unassigned_variable c d a = Ret v ->
  dict_get a v = None /\ In v (dict_keys d).
Proof.
  unfold select_unassigned_variable.
  destruct (sorted (select_key c d) pair_lt (unassigned d a)) as [|u r] eqn:E;
    [discriminate|].
  intros [= ->].
  assert (I : In v (unassigned d a)).
  { apply (sorted_In (select_key c d) pair_lt). rewrite E. now left. }
  unfold unassigned in I. apply filter_In in I as [I N].
  split; [|assumption].
  apply dict_mem_false. now destruct (dict_mem a v).
Qed.

(** ** [backtrack] *)

Lemma assignment_complete_keys (d d' : domains_t) (a : assignment_t) :
  dict_keys d = dict_keys d' ->
  assignment_complete d a = assignment_complete d' a.
Proof. unfold assignment_complete. now intros ->. Qed.

Lemma tried_values_app (var : Var) (l1 l2 : list event) :
  tried_values var (l1 ++ l2) = tried_values var l2 ++ tried_values var l1.
Proof. unfold tried_values. now rewrite flat_map_app, rev_app_distr. Qed.

Lemma tried_values_fresh (var : Var) (a : assignment_t) (new : list event) :
  fresh_tries a new -> dict_get a var <> None -> tried_values var new = [].
Proof.
  unfold tried_values. intros F N.
  induction new as [|e r IH]; simpl; [reflexivity|].
  assert (Fr : fresh_tries a r) by (intros v w I; apply (F v w); now right).
  destruct e as [|v w]; simpl; [now apply IH|].
  destruct (Var_eqb v var) eqn:E; simpl; [|now apply IH].
  apply Var_eqb_eq in E. subst v. exfalso. apply N, (F var w). now left.
Qed.

Lemma fresh_tries_app (a : assignment_t) (l1 l2 : list event) :
  fresh_tries a l1 -> fresh_tries a l2 -> fresh_tries a (l1 ++ l2).
Proof.
  intros F1 F2 v w I. apply in_app_or in I as [I | I]; eauto.
Qed.

Lemma fresh_tries_step (a : assignment_t) (var : Var) (value : string)
  (new : list event) :
  dict_get a var = None ->
  fresh_tries (dict_set a var value) new ->
  fresh_tries a (new ++ [Try var value])
  /\ tried_values var (new ++ [Try var value]) = [value].
Proof.
  intros G F. split.
  - apply fresh_tries_app.
    + intros v w I. specialize (F v w I).
      destruct (Var_eqb v var) eqn:E.
      * apply Var_eqb_eq in E. subst v.
        rewrite dict_get_set_same in F. discriminate.
      * apply Var_eqb_neq in E. now rewrite dict_get_set_other in F.
    + intros v w [[= <- <-] | []]. assumption.
  - rewrite tried_values_app.
    rewrite (tried_values_fresh var _ new F)
      by (rewrite dict_get_set_same; discriminate).
    unfold tried_values. simpl. now rewrite Var_eqb_refl.
Qed.

Lemma backtrack_values_cons (c : Crossword)
  (rec : state -> outcome (option assignment_t) * state)
  (fuel : nat) (var : Var) (size : nat) (value : string)
  (rest : list string) (st : state) :
  backtrack_values c rec fuel var size (value :: rest) st =
  if negb (List.length (dom (domains st) var) =? size)
  then (Raise RuntimeError, st)
  else
    let st1 :=
      log (Try var value)
          (with_assignment st (dict_set (assignment st) var value)) in
    match consistent c (assignment st1) with
    | Ret true =>
        match ac3 c fuel (Some (scoped_arcs c var)) (domains st1) with
        | (Ret _, d2) =>
            match rec (with_domains st1 d2) with
            | (Ret (Some ((_ :: _) as result)), st3) =>
                (Ret (Some result), st3)
            | (Ret _, st3) =>
                undo var st3 (backtrack_values c rec fuel var size rest)
            | (o, st3) => (o, st3)
            end
        | (Raise e, d2) => (Raise e, with_domains st1 d2)
        | (OutOfFuel, d2) => (OutOfFuel, with_domains st1 d2)
        end
    | Ret false =>
        undo var st1 (backtrack_values c rec fuel var size rest)
    | Raise e => (Raise e, st1)
    | OutOfFuel => (OutOfFuel, st1)
    end.
Proof. reflexivity. Qed.

(** A turn of the loop that ends the loop without a result. *)
Lemma loop_post_stop (c : Crossword) (var : Var) (value : string)
  (rest : list string) (st st3 : state) (new : list event)
  (o : outcome (option assignment_t)) :
  dict_get (assignment st) var = None ->
  shrinks (domains st) (domains st3) ->
  trace st3 = new ++ Try var value :: trace st ->
  fresh_tries (dict_set (assignment st) var value) new ->
  match o with Ret _ => False | _ => True end ->
  loop_post c var (value :: rest) st (o, st3).
Proof.
  intros G Sh T F O.
  destruct (fresh_tries_step _ _ value _ G F) as [F' Tv].
  split; [assumption|]. split.
  - exists (new ++ [Try var value]). rewrite <- app_assoc. simpl.
    repeat split; try assumption.
    + exists rest. now rewrite Tv.
    + intros E. subst o. contradiction.
  - simpl. destruct o; [contradiction | exact I | exact I].
Qed.

(** A turn of the loop that undid its assignment and goes on. *)
Lemma loop_post_continue (c : Crossword) (var : Var) (value : string)
  (rest : list string) (st st4 : state) (new : list event)
  (r : outcome (option assignment_t) * state) :
  dict_get (assignment st) var = None ->
  shrinks (domains st) (domains st4) ->
  trace st4 = new ++ Try var value :: trace st ->
  fresh_tries (dict_set (assignment st) var value) new ->
  assignment st4 = assignment st ->
  loop_post c var rest st4 r ->
  loop_post c var (value :: rest) st r.
Proof.
  intros G Sh T F A [Sh' [[new' [T' [F' [[rest' P] N]]]] O]].
  destruct (fresh_tries_step _ _ value _ G F) as [F1 Tv].
  split; [eapply shrinks_trans; eassumption|]. split.
  - exists (new' ++ (new ++ [Try var value])).
    rewrite T', T, <- !app_assoc. simpl. split; [reflexivity|].
    rewrite tried_values_app, Tv. simpl. repeat split.
    + apply fresh_tries_app; [now rewrite <- A | assumption].
    + exists rest'. now rewrite P at 1.
    + intros E. now rewrite (N E).
  - destruct (fst r) as [[a|]|e|]; try exact I.
    + destruct O as [O1 [O2 O3]]. repeat split; try assumption.
      rewrite <- O2. apply assignment_complete_keys. symmetry. apply Sh.
    + congruence.
Qed.

Lemma loop_post_undo (c : Crossword)
  (next : state -> outcome (option assignment_t) * state)
  (var : Var) (value : string) (rest : list string) (st st3 : state)
  (new : list event) :
  dict_get (assignment st) var = None ->
  shrinks (domains st) (domains st3) ->
  trace st3 = new ++ Try var value :: trace st ->
  fresh_tries (dict_set (assignment st) var value) new ->
  (assignment st3 = dict_set (assignment st) var value
   \/ dict_mem (assignment st3) var = false) ->
  (forall st4, dict_get (assignment st4) var = None ->
               loop_post c var rest st4 (next st4)) ->
  loop_post c var (value :: rest) st (undo var st3 next).
Proof.
  intros G Sh T F A IH. unfold undo.
  destruct (dict_mem (assignment st3) var) eqn:M.
  - destruct A as [A | A]; [|discriminate].
    assert (D : dict_del (assignment st3) var = assignment st)
      by (rewrite A; now apply dict_del_set_fresh).
    eapply loop_post_continue with (st4 := with_assignment st3 _);
      simpl; try eassumption.
    apply IH. simpl. now rewrite D.
  - eapply loop_post_stop; try eassumption. exact I.
Qed.

Lemma backtrack_values_post (c : Crossword)
  (rec : state -> outcome (option assignment_t) * state)
  (fuel : nat) (var : Var) (size : nat) :
  (forall st, search_post c st (rec st)) ->
  forall vals st,
    dict_get (assignment st) var = None ->
    loop_post c var vals st (backtrack_values c rec fuel var size vals st).
Proof.
  intros Hrec vals.
  induction vals as [|value rest IH]; intros st G.
  - simpl.
    destruct (negb (List.length (dom (domains st) var) =? size)).
    all: split; [apply shrinks_refl|]; split; [|simpl; auto].
    all: exists []; repeat split; try (now intros ? ? []); now exists [].
  - rewrite backtrack_values_cons.
    destruct (negb (List.length (dom (domains st) var) =? size)).
    { split; [apply shrinks_refl|]. split; [|exact I].
      exists []. repeat split; try (now intros ? ? []).
      - now exists (value :: rest).
      - discriminate. }
    cbv zeta. simpl assignment. simpl domains.
    destruct (consistent c (dict_set (assignment st) var value))
      as [[|]|e|] eqn:C.
    + pose proof (ac3_shrinks c fuel (Some (scoped_arcs c var)) (domains st))
        as Sh.
      destruct (ac3 c fuel (Some (scoped_arcs c var)) (domains st))
        as [[b|e|] d2]; simpl in Sh.
      * match goal with |- context [rec ?s] => set (st2 := s) end.
        pose proof (Hrec st2) as [Sh3 [[new [T F]] O]].
        assert (Sh' : shrinks (domains st) (domains (snd (rec st2))))
          by (eapply shrinks_trans; eassumption).
        clear Sh3.
        destruct (rec st2) as [[[[|e a]|]|e|] st3]; simpl in *.
        -- eapply loop_post_undo; try eassumption.
           right. destruct O as [<- _]. reflexivity.
        -- destruct (fresh_tries_step _ _ value _ G F) as [F' Tv].
           split; [assumption|]. split.
           ++ exists (new ++ [Try var value]). rewrite <- app_assoc.
              simpl. repeat split; try assumption.
              ** exists rest. now rewrite Tv.
              ** discriminate.
           ++ simpl. destruct O as [O1 [O2 O3]]. repeat split.
              ** assumption.
              ** rewrite <- O2. apply assignment_complete_keys.
                 symmetry. apply Sh.
              ** destruct O3 as [-> | O3]; assumption.
        -- eapply loop_post_undo; try eassumption. now left.
        -- eapply loop_post_stop with (new := new); eassumption.
        -- eapply loop_post_stop with (new := new); eassumption.
      * eapply loop_post_stop with (new := []);
          first [eassumption | reflexivity | exact I | now intros ? ? []].
      * eapply loop_post_stop with (new := []);
          first [eassumption | reflexivity | exact I | now intros ? ? []].
    + eapply loop_post_undo with (new := []);
        first [eassumption | reflexivity | apply shrinks_refl
              | now intros ? ? [] | now left].
    + eapply loop_post_stop with (new := []);
        first [eassumption | reflexivity | exact I | apply shrinks_refl
              | now intros ? ? []].
    + eapply loop_post_stop with (new := []);
        first [eassumption | reflexivity | exact I | apply shrinks_refl
              | now intros ? ? []].
Qed.

(** The invariants of the search hold of every call of [backtrack]. *)
Lemma backtrack_post (c : Crossword) (fuel : nat) :
  forall st, search_post c st (backtrack c fuel st).
Proof.
  induction fuel as [|fuel IH]; intros st.
  - simpl. split; [apply shrinks_refl|]. split; [|exact I].
    exists []. split; [reflexivity | now intros ? ? []].
  - simpl.
    destruct (assignment_complete (domains st) (assignment st)) eqn:Cpl.
    + split; [apply shrinks_refl|]. split.
      * exists [Call]. split; [reflexivity|]. intros v w [H | []]. discriminate.
      * simpl. repeat split; [assumption | now left].
    + assert (Stop : forall o,
                 match o with Ret _ => False | _ => True end ->
                 search_post c st (o, log Call st)).
      { intros o Ho. split; [apply shrinks_refl|]. split.
        - exists [Call]. split; [reflexivity|].
          intros v w [H | []]. discriminate.
        - simpl. destruct o; [contradiction | exact I | exact I]. }
      destruct (select_unassigned_variable c (domains st) (assignment st))
        as [var|e|] eqn:Sel; try (apply Stop; exact I).
      apply select_unassigned in Sel as [G _].
      destruct (dict_get (domains st) var) as [vals|];
        [|apply Stop; exact I].
      pose proof (backtrack_values_post c (backtrack c fuel) fuel var
                    (List.length vals) IH vals (log Call st) G)
        as [Sh [[new [T [F _]]] O]].
      split; [assumption|]. split.
      * exists (new ++ [Call]). rewrite T, <- app_assoc. simpl.
        split; [reflexivity|]. apply fresh_tries_app; [assumption|].
        intros v w [H | []]. discriminate.
      * destruct (fst (backtrack_values c (backtrack c fuel) fuel var
                         (List.length vals) vals (log Call st)))
          as [[a|]|e|]; try exact I; simpl in *.
        -- destruct O as [O1 [O2 O3]]. repeat split; try assumption.
           now right.
        -- assumption.
Qed.

(** C1: an assignment returned by [solve] gives a word to every variable,
    the words are pairwise distinct, each has the length its variable
    requires, and crossing variables carry the same character at the
    registered overlap indices. *)
Theorem solve_sound (c : Crossword) (fuel : nat) (a : assignment_t)
  (st : state) :
  solve c fuel = (Ret (Some a), st) -> valid_total c a.
Proof.
  unfold solve.
  pose proof (enforce_node_consistency_shrinks c (init_domains c)) as [K1 _].
  destruct (enforce_node_consistency c (init_domains c)) as [[[]|e|] d1];
    try discriminate.
  pose proof (ac3_shrinks c fuel None d1) as [K2 _].
  destruct (ac3 c fuel None d1) as [[b|e|] d2]; try discriminate.
  simpl in K1, K2. intros H.
  pose proof (backtrack_post c fuel (mkState d2 [] [])) as [_ [_ O]].
  rewrite H in O. simpl in O. destruct O as [_ [Cpl O]].
  assert (All : forall v, In v (variables c) -> dict_mem a v = true).
  { intros v I. unfold assignment_complete in Cpl.
    rewrite forallb_forall in Cpl. apply Cpl.
    now rewrite K2, K1, init_domains_keys. }
  destruct O as [-> | O]; [|now apply consistent_valid].
  assert (E : variables c = []).
  { destruct (variables c) as [|v r]; [reflexivity|].
    specialize (All v (or_introl eq_refl)). discriminate. }
  unfold valid_total. rewrite E. simpl. repeat split.
  - intros v [].
  - constructor.
  - discriminate.
  - intros ? ? ? ? ? ? [].
Qed.

(** C4, as the code has it: [backtrack] undoes the assignment and not the
    store.  When a call returns [None] the assignment is the one it was
    given, and every domain is included in the domain it had on entry:
    what the scoped calls of [ac3] removed stays removed. *)
Theorem backtrack_none_keeps_removals (c : Crossword) (fuel : nat)
  (st st' : state) :
  backtrack c fuel st = (Ret None, st') ->
  assignment st' = assignment st
  /\ forall v, incl (dom (domains st') v) (dom (domains st) v).
Proof.
  intros H. pose proof (backtrack_post c fuel st) as [[_ Sh] [_ O]].
  rewrite H in *. simpl in *. now split.
Qed.

(** C5, as the code has it: the values [backtrack] assigns to the
    variable it selected are an initial segment of the domain of that
    variable in the iteration order of the set, and all of it when the
    call returns [None]; [order_domain_values] takes no part. *)
Theorem backtrack_tries_domain_order (c : Crossword) (fuel : nat)
  (st : state) (var : Var) (vals : list string) :
  assignment_complete (domains st) (assignment st) = false ->
  select_unassigned_variable c (domains st) (assignment st) = Ret var ->
  dict_get (domains st) var = Some vals ->
  exists new,
    trace (snd (backtrack c (S fuel) st)) = new ++ Call :: trace st
    /\ (exists rest, vals = tried_values var new ++ rest)
    /\ (fst (backtrack c (S fuel) st) = Ret None ->
        tried_values var new = vals).
Proof.
  intros Cpl Sel G. simpl. rewrite Cpl, Sel, G.
  apply select_unassigned in Sel as [Ga _].
  destruct (backtrack_values_post c (backtrack c fuel) fuel var
              (List.length vals) (backtrack_post c fuel) vals
              (log Call st) Ga)
    as [_ [[new [T [_ [P N]]]] _]].
  exists new. now repeat split.
Qed.

(** ** Divergence of the loop of [ac3] *)

Lemma ac3_steps_run (c : Crossword) (n : nat) :
  forall stack d stack' d',
    ac3_steps c n stack d = Some (stack', d') ->
    ac3_run c stack d stack' d'.
Proof.
  induction n as [|n IH]; intros stack d stack' d'; simpl.
  - intros [= <- <-]. constructor.
  - destruct (ac3_step c stack d) as [[o|s1] d1] eqn:St; [discriminate|].
    intros H. econstructor; [exact St | now apply IH].
Qed.

(** Along a run the loop either exhausts its fuel or reaches the end of
    the run with the fuel that is left. *)
Lemma ac3_run_loop (c : Crossword) (stack stack' : list arc)
  (d d' : domains_t) :
  ac3_run c stack d stack' d' ->
  forall fuel,
    fst (ac3_loop c fuel stack d) = OutOfFuel
    \/ exists fuel', fuel' <= fuel
                     /\ ac3_loop c fuel stack d = ac3_loop c fuel' stack' d'.
Proof.
  induction 1 as [stack d | stack d s1 d1 s2 d2 St R IH]; intros fuel.
  - right. exists fuel. split; [lia | reflexivity].
  - destruct fuel as [|fuel]; [now left|]. simpl. rewrite St.
    destruct (IH fuel) as [E | [fuel' [L E]]]; [now left|].
    right. exists fuel'. split; [lia | assumption].
Qed.

(** A run that comes back to where it started never returns. *)
Lemma ac3_cycle_diverges (c : Crossword) (stack stack1 : list arc)
  (d d1 : domains_t) :
  ac3_step c stack d = (Continue stack1, d1) ->
  ac3_run c stack1 d1 stack d ->
  forall fuel, fst (ac3_loop c fuel stack d) = OutOfFuel.
Proof.
  intros St R fuel.
  induction fuel as [fuel IH] using (well_founded_induction lt_wf).
  destruct fuel as [|fuel]; [reflexivity|]. simpl. rewrite St.
  destruct (ac3_run_loop c _ _ _ _ R fuel) as [E | [fuel' [L E]]];
    [assumption|].
  rewrite E. apply IH. lia.
Qed.

Lemma ac3_run_diverges (c : Crossword) (stack stack' : list arc)
  (d d' : domains_t) :
  ac3_run c stack d stack' d' ->
  (forall fuel, fst (ac3_loop c fuel stack' d') = OutOfFuel) ->
  forall fuel, fst (ac3_loop c fuel stack d) = OutOfFuel.
Proof.
  intros R D fuel.
  destruct (ac3_run_loop c _ _ _ _ R fuel) as [E | [fuel' [L E]]];
    [assumption|].
  rewrite E. apply D.
Qed.

(** ** The first and the second run of [enforce_node_consistency] *)

Lemma filter_twice {A : Type} (f g : A -> bool) (l : list A) :
  filter f (filter g l) = filter (fun x => f x && g x) l.
Proof.
  induction l as [|a l IH]; simpl; [reflexivity|].
  destruct (g a); simpl; rewrite ?andb_true_r, ?andb_false_r.
  - destruct (f a); now rewrite IH.
  - exact IH.
Qed.

Lemma dict_set_set {V : Type} (d : list (Var * V)) (k : Var) (v1 v2 : V) :
  dict_set (dict_set d k v1) k v2 = dict_set d k v2.
Proof.
  induction d as [|[k' v'] r IH]; simpl.
  - now rewrite Var_eqb_refl.
  - destruct (Var_eqb k k') eqn:E; simpl.
    + now rewrite Var_eqb_refl.
    + now rewrite E, IH.
Qed.

Lemma dict_set_get {V : Type} (d : list (Var * V)) (k : Var) (v : V) :
  dict_get d k = Some v -> dict_set d k v = d.
Proof.
  induction d as [|[k' v'] r IH]; simpl; [discriminate|].
  destruct (Var_eqb k k') eqn:E.
  - intros [= ->]. apply Var_eqb_eq in E. now subst.
  - intros H. now rewrite IH.
Qed.

Lemma mem_word_false (w : string) (l : list string) :
  mem_word w l = false <-> ~ In w l.
Proof.
  rewrite <- mem_word_In. destruct (mem_word w l); split; congruence.
Qed.

(** The inner loop on a domain [s] that holds all the words it visits:
    it removes those of the wrong length. *)
Lemma node_consistency_words_first (v : Var) (ws : list string) :
  forall d s,
    dict_get d v = Some s -> NoDup ws -> incl ws s ->
    node_consistency_words v ws d
    = (Ret tt,
       dict_set d v
         (filter (fun w => (String.length w =? var_length v)
                           || negb (mem_word w ws)) s)).
Proof.
  induction ws as [|w rest IH]; intros d s G N I; simpl.
  - rewrite (filter_ext _ (fun _ => true)), filter_true.
    + now rewrite dict_set_get.
    + intros a. apply orb_true_r.
  - inversion N as [|? ? Nw Nr]; subst.
    destruct (String.length w =? var_length v) eqn:L.
    + rewrite (IH d s G Nr) by (intros u Hu; apply I; now right).
      do 2 f_equal. apply filter_ext_in. intros u Hu.
      destruct (String.eqb u w) eqn:E; [|reflexivity].
      apply String.eqb_eq in E. subst u. rewrite L. reflexivity.
    + rewrite G.
      assert (M : mem_word w s = true) by (apply mem_word_In, I; now left).
      rewrite M.
      rewrite (IH _ (set_remove w s)).
      * rewrite dict_set_set. do 2 f_equal. unfold set_remove.
        rewrite filter_twice. apply filter_ext. intros u.
        rewrite (String.eqb_sym w u).
        destruct (String.eqb u w) eqn:E; simpl.
        -- apply String.eqb_eq in E. subst u.
           now rewrite L, andb_false_r.
        -- now rewrite andb_true_r.
      * apply dict_get_set_same.
      * assumption.
      * intros u Hu. unfold set_remove. apply filter_In. split.
        -- apply I. now right.
        -- apply negb_true_iff, String.eqb_neq. intros ->. contradiction.
Qed.

Lemma node_consistency_vars_first (c : Crossword) (vs : list Var) :
  NoDup (words c) ->
  forall d,
    NoDup vs ->
    (forall v, In v vs -> dict_get d v = Some (words c)) ->
    exists d',
      node_consistency_vars c vs d = (Ret tt, d')
      /\ (forall v, In v vs -> dict_get d' v = Some (filter (fits v) (words c)))
      /\ (forall u, ~ In u vs -> dict_get d' u = dict_get d u).
Proof.
  intros Nw. induction vs as [|v rest IH]; intros d N G; simpl.
  - exists d. repeat split. intros v [].
  - inversion N as [|? ? Nv Nr]; subst.
    rewrite (node_consistency_words_first v (words c) d (words c));
      [|apply G; now left | assumption | apply incl_refl].
    set (kept := filter _ (words c)).
    assert (K : kept = filter (fits v) (words c)).
    { apply filter_ext_in. intros w I. unfold fits.
      apply mem_word_In in I. rewrite I. apply orb_false_r. }
    destruct (IH (dict_set d v kept) Nr) as [d' [E [P Q]]].
    { intros u I. rewrite dict_get_set_other; [apply G; now right|].
      intros ->. contradiction. }
    exists d'. split; [assumption|]. split.
    + intros u [<- | I]; [|now apply P].
      rewrite (Q v Nv), dict_get_set_same. now rewrite K.
    + intros u Hu. rewrite Q by (intros I; apply Hu; now right).
      apply dict_get_set_other. intros ->. apply Hu. now left.
Qed.

Lemma init_domains_get (c : Crossword) (v : Var) :
  In v (variables c) -> dict_get (init_domains c) v = Some (words c).
Proof.
  unfold init_domains. induction (variables c) as [|u r IH]; simpl; [intros []|].
  intros [-> | I].
  - now rewrite Var_eqb_refl.
  - destruct (Var_eqb v u); [reflexivity | now apply IH].
Qed.

(** On a puzzle whose variables and words are sets, the first run
    returns and leaves in every domain the words of the right length. *)
Lemma enforce_node_consistency_first (c : Crossword) :
  NoDup (variables c) -> NoDup (words c) ->
  exists d1,
    enforce_node_consistency c (init_domains c) = (Ret tt, d1)
    /\ forall v, In v (variables c) ->
                 dict_get d1 v = Some (filter (fits v) (words c)).
Proof.
  intros Nv Nw.
  destruct (node_consistency_vars_first c (variables c) Nw (init_domains c) Nv)
    as [d1 [E [P _]]].
  - intros v I. now apply init_domains_get.
  - exists d1. now split.
Qed.

(** On a store that holds for [v] only words that fit, the inner loop
    changes nothing, and raises at the first word that does not fit. *)
Lemma node_consistency_words_again (v : Var) (d : domains_t)
  (all : list string) (ws : list string) :
  dict_get d v = Some (filter (fits v) all) ->
  node_consistency_words v ws d
  = (if forallb (fits v) ws then Ret tt else Raise KeyError, d).
Proof.
  intros G. induction ws as [|w rest IH]; simpl; [reflexivity|].
  unfold fits at 1. destruct (String.length w =? var_length v) eqn:L; simpl.
  - exact IH.
  - rewrite G.
    assert (M : mem_word w (filter (fits v) all) = false).
    { apply mem_word_false. intros I. apply filter_In in I as [_ F].
      unfold fits in F. congruence. }
    now rewrite M.
Qed.

Lemma node_consistency_vars_again (c : Crossword) (d : domains_t)
  (vs : list Var) :
  (forall v, In v vs -> dict_get d v = Some (filter (fits v) (words c))) ->
  node_consistency_vars c vs d
  = (if forallb (fun v => forallb (fits v) (words c)) vs
     then Ret tt else Raise KeyError, d).
Proof.
  induction vs as [|v rest IH]; intros G; simpl; [reflexivity|].
  rewrite (node_consistency_words_again v d (words c))
    by (apply G; now left).
  destruct (forallb (fits v) (words c)); simpl; [|reflexivity].
  apply IH. intros u I. apply G. now right.
Qed.

(** The second run in general: it never changes the store, and it
    returns only when the first run had nothing to remove. *)
Lemma enforce_node_consistency_twice (c : Crossword) (d1 : domains_t) :
  NoDup (variables c) -> NoDup (words c) ->
  enforce_node_consistency c (init_domains c) = (Ret tt, d1) ->
  enforce_node_consistency c d1
  = (if forallb (fun v => forallb (fits v) (words c)) (variables c)
     then Ret tt else Raise KeyError, d1).
Proof.
  intros Nv Nw E.
  destruct (enforce_node_consistency_first c Nv Nw) as [d1' [E' P]].
  rewrite E in E'. injection E' as <-.
  now apply node_consistency_vars_again.
Qed.

(** ** A variable with an empty domain *)

Lemma sorted_insert_head {A K : Type} (key : A -> K)
  (key_lt : K -> K -> bool) (x : A) (l : list A) :
  exists h r, sorted_insert key key_lt x l = h :: r
              /\ (h = x
                  \/ exists r', l = h :: r' /\ key_lt (key h) (key x) = true).
Proof.
  destruct l as [|y l']; simpl.
  - exists x, []. split; [reflexivity | now left].
  - destruct (key_lt (key y) (key x)) eqn:E.
    + eexists y, _. split; [reflexivity|]. right. now exists l'.
    + eexists x, _. split; [reflexivity | now left].
Qed.

(** The variable that comes first has a domain of minimal size. *)
Lemma sorted_head_min (c : Crossword) (d : domains_t) (l : list Var)
  (h : Var) (r : list Var) :
  sorted (select_key c d) pair_lt l = h :: r ->
  forall u, In u l -> List.length (dom d h) <= List.length (dom d u).
Proof.
  revert h r. induction l as [|x l IH]; intros h r; simpl; [discriminate|].
  intros E u I.
  destruct (sorted (select_key c d) pair_lt l) as [|y s] eqn:S.
  - destruct l as [|x' l'].
    + simpl in E. injection E as <- <-. destruct I as [<- | []]. lia.
    + simpl in S.
      destruct (sorted_insert_head (select_key c d) pair_lt x'
                  (sorted (select_key c d) pair_lt l')) as [h' [r' [E' _]]].
      congruence.
  - simpl in E.
    destruct (pair_lt (select_key c d y) (select_key c d x)) eqn:L;
      injection E as <- <-.
    + assert (Lx : List.length (dom d y) <= List.length (dom d x)).
      { unfold pair_lt, select_key in L. simpl in L.
        apply orb_true_iff in L as [L | L].
        - apply Nat.ltb_lt in L. lia.
        - apply andb_true_iff in L as [L _]. apply Nat.eqb_eq in L. lia. }
      destruct I as [<- | I]; [assumption | now apply (IH y s)].
    + assert (Lx : List.length (dom d x) <= List.length (dom d y)).
      { unfold pair_lt, select_key in L. simpl in L.
        apply orb_false_iff in L as [L _]. apply Nat.ltb_ge in L. lia. }
      destruct I as [<- | I]; [lia|].
      specialize (IH y s eq_refl u I). lia.
Qed.

Lemma select_min_domain (c : Crossword) (d : domains_t) (a : assignment_t)
  (v : Var) :
  select_unassigned_variable c d a = Ret v ->
  forall u, In u (dict_keys d) -> dict_get a u = None ->
            List.length (dom d v) <= List.length (dom d u).
Proof.
  unfold select_unassigned_variable.
  destruct (sorted (select_key c d) pair_lt (unassigned d a)) as [|h r] eqn:E;
    [discriminate|].
  intros [= ->] u I G. apply (sorted_head_min c d _ _ _ E).
  unfold unassigned. apply filter_In. split; [assumption|].
  apply dict_mem_false in G. now rewrite G.
Qed.

Lemma select_returns (c : Crossword) (d : domains_t) (a : assignment_t)
  (u : Var) :
  In u (dict_keys d) -> dict_get a u = None ->
  exists v, select_unassigned_variable c d a = Ret v.
Proof.
  intros I G. unfold select_unassigned_variable.
  destruct (sorted (select_key c d) pair_lt (unassigned d a)) as [|h r] eqn:E;
    [|now exists h].
  assert (J : In u (sorted (select_key c d) pair_lt (unassigned d a))).
  { apply sorted_In. unfold unassigned. apply filter_In.
    split; [assumption|]. apply dict_mem_false in G. now rewrite G. }
  rewrite E in J. destruct J.
Qed.

Lemma dict_keys_get {V : Type} (d : list (Var * V)) (k : Var) :
  In k (dict_keys d) -> exists v, dict_get d k = Some v.
Proof. intros I. apply dict_mem_get. unfold dict_mem. now apply mem_var_In. Qed.

(** When some unassigned variable has an empty domain, [backtrack]
    returns [None] from its first invocation: it selects a variable with
    an empty domain and its loop has no turn, so there is no recursive
    call and the store is untouched. *)
Lemma backtrack_empty_domain (c : Crossword) (fuel : nat) (st : state)
  (u : Var) :
  In u (dict_keys (domains st)) ->
  dict_get (assignment st) u = None ->
  dom (domains st) u = [] ->
  backtrack c (S fuel) st = (Ret None, log Call st).
Proof.
  intros I G E. simpl.
  assert (Cpl : assignment_complete (domains st) (assignment st) = false).
  { unfold assignment_complete.
    destruct (forallb _ _) eqn:F; [|reflexivity].
    rewrite forallb_forall in F. specialize (F u I).
    apply dict_mem_false in G. congruence. }
  rewrite Cpl.
  destruct (select_returns c _ _ u I G) as [v Sel]. rewrite Sel.
  pose proof (select_min_domain c _ _ v Sel u I G) as Min.
  rewrite E in Min. simpl in Min.
  apply select_unassigned in Sel as [_ Iv].
  destruct (dict_keys_get _ _ Iv) as [vals Gv]. rewrite Gv.
  assert (vals = []) as ->.
  { unfold dom in Min. rewrite Gv in Min. destruct vals; [reflexivity|].
    simpl in Min. lia. }
  simpl. unfold dom. simpl. now rewrite Gv.
Qed.

(** [solve] on a puzzle where node consistency left some domain empty:
    if the global call of [ac3] returns, [solve] returns the no-solution
    marker and [backtrack] was invoked once. *)
Lemma solve_empty_domain (c : Crossword) (fuel : nat) (d1 d2 : domains_t)
  (b : bool) (v : Var) :
  enforce_node_consistency c (init_domains c) = (Ret tt, d1) ->
  In v (variables c) -> dom d1 v = [] ->
  ac3 c (S fuel) None d1 = (Ret b, d2) ->
  solve c (S fuel) = (Ret None, mkState d2 [] [Call])
  /\ calls (trace (snd (solve c (S fuel)))) = 1.
Proof.
  intros E I Em A.
  pose proof (enforce_node_consistency_shrinks c (init_domains c)) as [K1 _].
  pose proof (ac3_shrinks c (S fuel) None d1) as [K2 Sh].
  rewrite E in K1. rewrite A in K2, Sh. simpl in K1, K2, Sh.
  assert (R : solve c (S fuel) = (Ret None, mkState d2 [] [Call])).
  { unfold solve. rewrite E, A.
    apply (backtrack_empty_domain c fuel (mkState d2 [] []) v); simpl.
    - now rewrite K2, K1, init_domains_keys.
    - reflexivity.
    - specialize (Sh v). rewrite Em in Sh.
      destruct (dom d2 v) as [|w ws]; [reflexivity|].
      exfalso. apply (Sh w). now left. }
  split; [assumption|]. now rewrite R.
Qed.

(** Scenario B of the specification on a puzzle whose variables and
    words are sets: a variable of length 5 and no word of length 5.  Node
    consistency returns and empties the domain of the variable; whenever
    the global call of [ac3] returns, [solve] returns the no-solution
    marker after a single invocation of [backtrack]. *)
Lemma solve_no_word_of_length_5 (c : Crossword) (v : Var) :
  NoDup (variables c) -> NoDup (words c) ->
  In v (variables c) -> var_length v = 5 ->
  (forall w, In w (words c) -> String.length w <> 5) ->
  exists d1,
    enforce_node_consistency c (init_domains c) = (Ret tt, d1)
    /\ dom d1 v = []
    /\ forall fuel b d2,
         ac3 c (S fuel) None d1 = (Ret b, d2) ->
         solve c (S fuel) = (Ret None, mkState d2 [] [Call])
         /\ calls (trace (snd (solve c (S fuel)))) = 1.
Proof.
  intros Nv Nw I L W.
  destruct (enforce_node_consistency_first c Nv Nw) as [d1 [E P]].
  assert (Em : dom d1 v = []).
  { unfold dom. rewrite (P v I).
    destruct (filter (fits v) (words c)) as [|w ws] eqn:F; [reflexivity|].
    assert (J : In w (filter (fits v) (words c))) by (rewrite F; now left).
    apply filter_In in J as [J Fw]. unfold fits in Fw.
    apply Nat.eqb_eq in Fw. exfalso. apply (W w J). congruence. }
  exists d1. repeat split; try assumption.
  - eapply solve_empty_domain; eassumption.
  - eapply solve_empty_domain; eassumption.
Qed.

(** * The engine on concrete puzzles *)

Lemma solve_sound_witness :
  solve Puzzles.swap 10
  = (Ret (Some [(Puzzles.x, "AB"); (Puzzles.y, "BA")]),
     snd (solve Puzzles.swap 10))
  /\ valid_total Puzzles.swap [(Puzzles.x, "AB"); (Puzzles.y, "BA")].
Proof.
  split; [vm_compute; reflexivity|].
  apply (solve_sound Puzzles.swap 10 _ (snd (solve Puzzles.swap 10))).
  vm_compute. reflexivity.
Defined.

(** C2: on the two crossing slots with the vocabulary AB, BC the
    assignment across = AB, down = BC is valid and drawn from the
    vocabulary, and [solve] returns [None] whatever fuel it is given
    beyond three units. *)
Theorem solve_misses_solution :
  valid_total Puzzles.chain [(Puzzles.x, "AB"); (Puzzles.y, "BC")]
  /\ from_vocabulary Puzzles.chain [(Puzzles.x, "AB"); (Puzzles.y, "BC")]
  /\ forall n, fst (solve Puzzles.chain (3 + n)) = Ret None.
Proof.
  split; [|split].
  - apply consistent_valid; [vm_compute; reflexivity|].
    intros v [<- | [<- | []]]; reflexivity.
  - intros v w G. apply dict_get_In in G.
    destruct G as [[= <- <-] | [[= <- <-] | []]]; simpl; auto.
  - intros n. vm_compute. reflexivity.
Qed.

(** C3: with the second letter of [x] crossing the first letter of [y]
    and both domains AB, BC, the word of [x] without a partner is BC;
    [revise(x, y)] removes AB instead.  On the domains BC for [x] and AB
    for [y], [revise(y, x)] returns [True] and removes nothing. *)
Theorem revise_removes_unsupported_of_y :
  revise Puzzles.chain Puzzles.x Puzzles.y (init_domains Puzzles.chain)
  = (Ret true, [(Puzzles.x, ["BC"]); (Puzzles.y, ["AB"; "BC"])])
  /\ revise_spec Puzzles.chain Puzzles.x Puzzles.y (init_domains Puzzles.chain)
     = (true, [(Puzzles.x, ["AB"]); (Puzzles.y, ["AB"; "BC"])])
  /\ revise Puzzles.chain Puzzles.y Puzzles.x
            [(Puzzles.x, ["BC"]); (Puzzles.y, ["AB"])]
     = (Ret true, [(Puzzles.x, ["BC"]); (Puzzles.y, ["AB"])]).
Proof. repeat split. Qed.

Lemma backtrack_none_keeps_removals_witness :
  backtrack Puzzles.prune 10 Puzzles.prune_entry
  = (Ret None, snd (backtrack Puzzles.prune 10 Puzzles.prune_entry))
  /\ assignment (snd (backtrack Puzzles.prune 10 Puzzles.prune_entry)) = []
  /\ forall v,
       incl (dom (domains (snd (backtrack Puzzles.prune 10
                                          Puzzles.prune_entry))) v)
            (dom (domains Puzzles.prune_entry) v).
Proof.
  split; [vm_compute; reflexivity|].
  apply (backtrack_none_keeps_removals Puzzles.prune 10 Puzzles.prune_entry).
  vm_compute. reflexivity.
Defined.

(** C4 fails as stated: on the slots [x], [y] with the vocabulary AB, BC,
    XA, [solve] calls [backtrack] with the domains AB, BC for [x] and
    AB, XA for [y].  The two slots tie in the selection; when [x] comes
    first the call returns [None] and leaves the domain of [y] at XA,
    and when [y] comes first it returns [None] and leaves the domain of
    [x] at BC. *)
Lemma backtrack_none_changes_store :
  snd (ac3 Puzzles.prune 10 None
           (snd (enforce_node_consistency Puzzles.prune
                                          (init_domains Puzzles.prune))))
  = domains Puzzles.prune_entry
  /\ fst (backtrack Puzzles.prune 10 Puzzles.prune_entry) = Ret None
  /\ dom (domains Puzzles.prune_entry) Puzzles.y = ["AB"; "XA"]
  /\ dom (domains (snd (backtrack Puzzles.prune 10 Puzzles.prune_entry)))
         Puzzles.y = ["XA"]
  /\ snd (ac3 Puzzles.prune_rev 10 None
              (snd (enforce_node_consistency Puzzles.prune_rev
                                             (init_domains Puzzles.prune_rev))))
     = domains Puzzles.prune_rev_entry
  /\ fst (backtrack Puzzles.prune_rev 10 Puzzles.prune_rev_entry) = Ret None
  /\ dom (domains Puzzles.prune_rev_entry) Puzzles.x = ["AB"; "BC"]
  /\ dom (domains (snd (backtrack Puzzles.prune_rev 10
                                  Puzzles.prune_rev_entry)))
         Puzzles.x = ["BC"]
  /\ ~ (forall c fuel st st',
          backtrack c fuel st = (Ret None, st') -> domains st' = domains st).
Proof.
  repeat split.
  intros H.
  specialize (H Puzzles.prune 10 Puzzles.prune_entry
                (snd (backtrack Puzzles.prune 10 Puzzles.prune_entry))
                eq_refl).
  vm_compute in H. discriminate.
Qed.

Lemma backtrack_tries_domain_order_witness :
  assignment_complete (domains Puzzles.corner_entry)
                      (assignment Puzzles.corner_entry) = false
  /\ select_unassigned_variable Puzzles.corner (domains Puzzles.corner_entry)
                                (assignment Puzzles.corner_entry)
     = Ret Puzzles.p
  /\ dict_get (domains Puzzles.corner_entry) Puzzles.p = Some ["AB"; "CD"]
  /\ exists new,
       trace (snd (backtrack Puzzles.corner 10 Puzzles.corner_entry))
       = new ++ Call :: trace Puzzles.corner_entry
       /\ (exists rest, ["AB"; "CD"] = tried_values Puzzles.p new ++ rest)
       /\ (fst (backtrack Puzzles.corner 10 Puzzles.corner_entry) = Ret None ->
           tried_values Puzzles.p new = ["AB"; "CD"]).
Proof.
  repeat split.
  apply (backtrack_tries_domain_order Puzzles.corner 9 Puzzles.corner_entry
                                      Puzzles.p ["AB"; "CD"]);
    reflexivity.
Defined.

(** C5 fails as stated: on [corner] the search selects the across slot,
    which has the smaller domain.  When the set iterates as AB, CD the
    search assigns AB and then CD; AB rules out the three words of the
    down slot and CD none, so the least-constraining-value order is CD,
    AB.  [order_domain_values] itself raises on this store. *)
Lemma backtrack_ignores_value_order :
  snd (ac3 Puzzles.corner 10 None
           (snd (enforce_node_consistency Puzzles.corner
                                          (init_domains Puzzles.corner))))
  = domains Puzzles.corner_entry
  /\ select_unassigned_variable Puzzles.corner (domains Puzzles.corner_entry)
                                [] = Ret Puzzles.p
  /\ tried_values Puzzles.p
       (trace (snd (backtrack Puzzles.corner 10 Puzzles.corner_entry)))
     = ["AB"; "CD"]
  /\ lcv_order_spec Puzzles.corner (domains Puzzles.corner_entry) [] Puzzles.p
     = ["CD"; "AB"]
  /\ order_domain_values Puzzles.corner (domains Puzzles.corner_entry)
                         Puzzles.p [] = Raise AttributeError
  /\ tried_values Puzzles.p
       (trace (snd (backtrack Puzzles.corner 10 Puzzles.corner_entry)))
     <> lcv_order_spec Puzzles.corner (domains Puzzles.corner_entry) []
                       Puzzles.p.
Proof. repeat split. vm_compute. discriminate. Qed.

(** C6: with the vocabulary AB, BC, XYZ and two slots of length 2, the
    first run of [enforce_node_consistency] removes XYZ from both
    domains and the second run raises [KeyError] on it. *)
Theorem node_consistency_second_run_raises :
  enforce_node_consistency Puzzles.mixed (init_domains Puzzles.mixed)
  = (Ret tt, [(Puzzles.x, ["AB"; "BC"]); (Puzzles.y, ["AB"; "BC"])])
  /\ enforce_node_consistency Puzzles.mixed
       [(Puzzles.x, ["AB"; "BC"]); (Puzzles.y, ["AB"; "BC"])]
     = (Raise KeyError, [(Puzzles.x, ["AB"; "BC"]); (Puzzles.y, ["AB"; "BC"])]).
Proof. split; reflexivity. Qed.

(** C9: on [ring] no word has length 5, node consistency empties the
    domain of [lone], and [solve] does not return: the loop of [ac3]
    goes round the four crossing slots for ever. *)
Theorem solve_ring_diverges :
  (forall w, In w (words Puzzles.ring) -> String.length w <> 5)
  /\ dom (snd (enforce_node_consistency Puzzles.ring
                                        (init_domains Puzzles.ring)))
         Puzzles.lone = []
  /\ forall fuel, fst (solve Puzzles.ring fuel) = OutOfFuel.
Proof.
  split; [|split].
  - intros w [<- | [<- | [<- | [<- | []]]]]; discriminate.
  - vm_compute. reflexivity.
  - intros fuel. unfold solve.
    set (r := enforce_node_consistency Puzzles.ring (init_domains Puzzles.ring)).
    assert (Hr : r = (Ret tt, snd r)) by (vm_compute; reflexivity).
    rewrite Hr.
    assert (D : fst (ac3 Puzzles.ring fuel None (snd r)) = OutOfFuel).
    { unfold ac3. revert fuel.
      eapply ac3_run_diverges.
      - apply (ac3_steps_run Puzzles.ring 5). vm_compute. reflexivity.
      - eapply ac3_cycle_diverges.
        + vm_compute. reflexivity.
        + apply (ac3_steps_run Puzzles.ring 3). vm_compute. reflexivity. }
    destruct (ac3 Puzzles.ring fuel None (snd r)) as [[b|e|] d2];
      simpl in D; try discriminate; reflexivity.
Qed.

(** * Further properties of the engine *)

(** ** [consistent] *)

Lemma consistent_neighbors_complete (c : Crossword) (a : assignment_t)
  (word1 : Var) (w1 : string) (ns : list Var) :
  (forall word2 w2, In word2 ns -> dict_get a word2 = Some w2 ->
     exists cell1 cell2 ch,
       overlaps c word1 word2 = Some (cell1, cell2)
       /\ String.get cell1 w1 = Some ch /\ String.get cell2 w2 = Some ch) ->
  consistent_neighbors c a word1 w1 ns = Ret true.
Proof.
  induction ns as [|n rest IH]; intros H; simpl; [reflexivity|].
  assert (Hr : consistent_neighbors c a word1 w1 rest = Ret true).
  { apply IH. intros word2 w2 I. apply H. now right. }
  destruct (dict_get a n) as [wn|] eqn:G; [|assumption].
  destruct (H n wn (or_introl eq_refl) G)
    as [cell1 [cell2 [ch [O [E1 E2]]]]].
  now rewrite O, E1, E2, Ascii.eqb_refl.
Qed.

Lemma consistent_vars_complete (c : Crossword) (a entries : assignment_t) :
  (forall word1 w1, In (word1, w1) entries ->
     String.length w1 = var_length word1
     /\ consistent_neighbors c a word1 w1 (neighbors c word1) = Ret true) ->
  consistent_vars c a entries = Ret true.
Proof.
  induction entries as [|[k w] rest IH]; intros H; simpl; [reflexivity|].
  destruct (H k w (or_introl eq_refl)) as [L N].
  apply Nat.eqb_eq in L. rewrite L, N. simpl.
  apply IH. intros word1 w1 I. apply H. now right.
Qed.

(** X1: [consistent] returns [True] exactly for the assignments whose
    words are pairwise distinct, have the length of their variable, and
    carry the same character as the word of every assigned neighbour at
    the registered overlap. *)
Theorem consistent_true_iff (c : Crossword) (a : assignment_t) :
  consistent c a = Ret true <-> partial_valid c a.
Proof.
  unfold consistent, partial_valid. split.
  - intros H.
    destruct (List.length (nodup string_dec (dict_values a)) =? List.length a)
      eqn:L; simpl in H; [|discriminate].
    apply Nat.eqb_eq in L.
    pose proof (consistent_vars_true c a a H) as Hv.
    split; [|split].
    + apply nodup_length_NoDup. rewrite L. unfold dict_values.
      now rewrite length_map.
    + intros v w I. now apply Hv.
    + intros v1 w1 v2 w2 I1 I2 G2.
      destruct (Hv v1 w1 I1) as [_ N].
      exact (consistent_neighbors_true c a v1 w1 _ N v2 w2 I2 G2).
  - intros [N [Hl Ho]].
    rewrite (nodup_fixed_point string_dec N).
    unfold dict_values. rewrite length_map, Nat.eqb_refl. simpl.
    apply consistent_vars_complete. intros word1 w1 I.
    split; [now apply Hl|].
    apply consistent_neighbors_complete. intros word2 w2 I2 G2.
    now apply (Ho word1 w1 word2 w2).
Qed.

(** ** [select_unassigned_variable] *)

Lemma pair_lt_iff (p q : nat * Z) :
  pair_lt p q = true <->
  fst p < fst q \/ (fst p = fst q /\ (snd p < snd q)%Z).
Proof.
  unfold pair_lt.
  rewrite orb_true_iff, andb_true_iff, Nat.ltb_lt, Nat.eqb_eq, Z.ltb_lt.
  reflexivity.
Qed.

Lemma pair_lt_false_iff (p q : nat * Z) :
  pair_lt p q = false <->
  fst q < fst p \/ (fst p = fst q /\ (snd q <= snd p)%Z).
Proof.
  destruct (pair_lt p q) eqn:E.
  - apply pair_lt_iff in E. split; [discriminate | lia].
  - split; [intros _ | reflexivity].
    assert (N : ~ (fst p < fst q \/ (fst p = fst q /\ (snd p < snd q)%Z))).
    { intros H. apply pair_lt_iff in H. congruence. }
    lia.
Qed.

(** No variable of the list comes strictly before the head of the
    sorted list. *)
Lemma sorted_head_least (c : Crossword) (d : domains_t) (l : list Var)
  (h : Var) (r : list Var) :
  sorted (select_key c d) pair_lt l = h :: r ->
  forall u, In u l -> pair_lt (select_key c d u) (select_key c d h) = false.
Proof.
  revert h r. induction l as [|x l IH]; intros h r; simpl; [discriminate|].
  intros E u I.
  destruct (sorted (select_key c d) pair_lt l) as [|y s] eqn:S.
  - destruct l as [|x' l'].
    + simpl in E. injection E as <- <-. destruct I as [<- | []].
      apply pair_lt_false_iff. lia.
    + simpl in S.
      destruct (sorted_insert_head (select_key c d) pair_lt x'
                  (sorted (select_key c d) pair_lt l')) as [h' [r' [E' _]]].
      congruence.
  - simpl in E.
    destruct (pair_lt (select_key c d y) (select_key c d x)) eqn:L;
      injection E as <- <-.
    + destruct I as [<- | I]; [|now apply (IH y s)].
      apply pair_lt_iff in L. apply pair_lt_false_iff. lia.
    + apply pair_lt_false_iff in L.
      destruct I as [<- | I]; [apply pair_lt_false_iff; lia|].
      specialize (IH y s eq_refl u I). apply pair_lt_false_iff in IH.
      apply pair_lt_false_iff. lia.
Qed.

(** X2: the variable [select_unassigned_variable] returns is a key of
    the store, is not assigned, has a domain of minimal size among the
    unassigned variables and, among those of that size, a maximal number
    of neighbours. *)
Theorem select_unassigned_variable_spec (c : Crossword) (d : domains_t)
  (a : assignment_t) (v : Var) :
  select_unassigned_variable c d a = Ret v ->
  In v (dict_keys d) /\ dict_get a v = None
  /\ forall u, In u (dict_keys d) -> dict_get a u = None ->
       List.length (dom d v) <= List.length (dom d u)
       /\ (List.length (dom d v) = List.length (dom d u) ->
           List.length (neighbors c u) <= List.length (neighbors c v)).
Proof.
  intros Sel. destruct (select_unassigned c d a v Sel) as [G I].
  split; [assumption|]. split; [assumption|].
  intros u Iu Gu. unfold select_unassigned_variable in Sel.
  destruct (sorted (select_key c d) pair_lt (unassigned d a)) as [|h r] eqn:E;
    [discriminate|].
  injection Sel as ->.
  assert (J : In u (unassigned d a)).
  { unfold unassigned. apply filter_In. split; [assumption|].
    apply dict_mem_false in Gu. now rewrite Gu. }
  pose proof (sorted_head_least c d _ _ _ E u J) as L.
  apply pair_lt_false_iff in L. unfold select_key in L. simpl in L. lia.
Qed.

Lemma sorted_nil {A K : Type} (key : A -> K) (key_lt : K -> K -> bool)
  (l : list A) : sorted key key_lt l = [] <-> l = [].
Proof.
  split; [|now intros ->].
  destruct l as [|x l]; [reflexivity|]. simpl. intros E.
  destruct (sorted_insert_head key key_lt x (sorted key key_lt l))
    as [h [r [E' _]]].
  congruence.
Qed.

Lemma unassigned_nil (d : domains_t) (a : assignment_t) :
  unassigned d a = [] <-> assignment_complete d a = true.
Proof.
  unfold unassigned, assignment_complete.
  induction (dict_keys d) as [|k r IH]; simpl; [tauto|].
  destruct (dict_mem a k); simpl; [exact IH|].
  split; discriminate.
Qed.

(** X3: [select_unassigned_variable] raises, and then [IndexError],
    exactly when the assignment is complete; on an incomplete assignment
    it returns a variable. *)
Theorem select_unassigned_variable_raises (c : Crossword) (d : domains_t)
  (a : assignment_t) :
  (select_unassigned_variable c d a = Raise IndexError
   <-> assignment_complete d a = true)
  /\ (assignment_complete d a = false
      <-> exists v, select_unassigned_variable c d a = Ret v).
Proof.
  unfold select_unassigned_variable.
  destruct (sorted (select_key c d) pair_lt (unassigned d a)) as [|h r] eqn:E.
  - apply sorted_nil, unassigned_nil in E. rewrite E. split.
    + tauto.
    + split; [discriminate | intros [v H]; discriminate].
  - assert (N : assignment_complete d a = false).
    { destruct (assignment_complete d a) eqn:C; [|reflexivity].
      apply unassigned_nil in C. rewrite C in E. discriminate. }
    rewrite N. split.
    + split; discriminate.
    + split; [now exists h | reflexivity].
Qed.

(** ** [revise] as it is *)

Lemma any_match_ret (word_y : string) (cell_y cell_x : nat)
  (dx : list string) (b : bool) :
  any_match word_y cell_y cell_x dx = Ret b ->
  (b = true <-> partner cell_x cell_y dx word_y).
Proof.
  unfold partner. induction dx as [|word_x rest IH]; simpl.
  - intros [= <-]. split; [discriminate | intros [wx [ch [[] _]]]].
  - destruct (String.get cell_y word_y) as [p|] eqn:Ey; [|discriminate].
    destruct (String.get cell_x word_x) as [q|] eqn:Ex; [|discriminate].
    destruct (Ascii.eqb p q) eqn:E.
    + intros [= <-]. apply Ascii.eqb_eq in E. subst q.
      split; [intros _ | reflexivity].
      exists word_x, p. repeat split; [now left | assumption].
    + intros H. rewrite (IH H). split.
      * intros [wx [ch [I [Hy Hx]]]]. exists wx, ch.
        repeat split; [now right | assumption | assumption].
      * intros [wx [ch [[<- | I] [Hy Hx]]]].
        -- rewrite Hx in Ex. injection Ex as <-. injection Hy as <-.
           rewrite Ascii.eqb_refl in E. discriminate.
        -- exists wx, ch. repeat split; assumption.
Qed.

Lemma out_ruled_of_ret (cell_x cell_y : nat) (dx dy out : list string) :
  out_ruled_of cell_x cell_y dx dy = Ret out ->
  forall w, In w out <-> In w dy /\ ~ partner cell_x cell_y dx w.
Proof.
  revert out. induction dy as [|word_y rest IH]; simpl; intros out.
  - intros [= <-] w. simpl. tauto.
  - destruct (any_match word_y cell_y cell_x dx) as [found|e|] eqn:A;
      try discriminate.
    destruct (out_ruled_of cell_x cell_y dx rest) as [o|e|]; try discriminate.
    intros [= <-] w. specialize (IH o eq_refl w).
    pose proof (any_match_ret _ _ _ _ _ A) as P.
    destruct found; simpl; rewrite ?IH.
    + split.
      * intros [I N]. split; [now right | assumption].
      * intros [[<- | I] N]; [|now split].
        exfalso. apply N, P. reflexivity.
    + split.
      * intros [<- | [I N]].
        -- split; [now left|]. intros Q. apply P in Q. discriminate.
        -- split; [now right | assumption].
      * intros [[<- | I] N]; [now left | right; now split].
Qed.

(** X4: what [revise(x, y)] does on crossing variables when it returns.
    A word stays in the domain of [x] unless it is also in the domain of
    [y] and has no partner in the domain of [x]; the result is [True]
    exactly when some word of the domain of [y] has no partner in the
    domain of [x], whether or not that word was in the domain of [x]. *)
Theorem revise_removes (c : Crossword) (x y : Var) (d d' : domains_t)
  (cell_x cell_y : nat) (b : bool) :
  In y (variables c) ->
  overlaps c x y = Some (cell_x, cell_y) ->
  revise c x y d = (Ret b, d') ->
  (forall w, In w (dom d' x) <->
             In w (dom d x)
             /\ ~ (In w (dom d y) /\ ~ partner cell_x cell_y (dom d x) w))
  /\ (b = true <->
      exists word_y, In word_y (dom d y)
                     /\ ~ partner cell_x cell_y (dom d x) word_y).
Proof.
  intros Iy O. unfold revise, dom.
  assert (M : mem_var y (neighbors c x) = true).
  { apply mem_var_In, neighbors_In. split; [assumption|].
    now exists (cell_x, cell_y). }
  rewrite M, O.
  destruct (dict_get d y) as [dy|]; [|discriminate].
  destruct (dict_get d x) as [dx|]; [|discriminate].
  destruct (out_ruled_of cell_x cell_y dx dy) as [out|e|] eqn:R;
    try discriminate.
  intros [= <- <-]. rewrite dict_get_set_same.
  pose proof (out_ruled_of_ret _ _ _ _ _ R) as Hout. split.
  - intros w. unfold set_diff. rewrite filter_In, negb_true_iff.
    rewrite mem_word_false, Hout. tauto.
  - destruct out as [|w0 out']; simpl.
    + split; [discriminate|]. intros [w [I N]].
      destruct (proj2 (Hout w) (conj I N)).
    + split; [intros _ | reflexivity].
      exists w0. apply Hout. now left.
Qed.

(** ** No exception from [revise] and [ac3] on node-consistent stores *)

Lemma get_in_range (n : nat) (s : string) :
  n < String.length s -> exists ch, String.get n s = Some ch.
Proof.
  revert n. induction s as [|a s IH]; simpl; intros n L; [lia|].
  destruct n as [|n]; [now exists a|]. apply IH. lia.
Qed.

Lemma any_match_returns (word_y : string) (cell_y cell_x : nat)
  (dx : list string) :
  cell_y < String.length word_y ->
  (forall word_x, In word_x dx -> cell_x < String.length word_x) ->
  exists b, any_match word_y cell_y cell_x dx = Ret b.
Proof.
  intros Ly Lx. induction dx as [|word_x rest IH]; simpl; [now exists false|].
  destruct (get_in_range _ _ Ly) as [p ->].
  destruct (get_in_range _ _ (Lx word_x (or_introl eq_refl))) as [q ->].
  destruct (Ascii.eqb p q); [now exists true|].
  apply IH. intros w I. apply Lx. now right.
Qed.

Lemma out_ruled_of_returns (cell_x cell_y : nat) (dx dy : list string) :
  (forall word_y, In word_y dy -> cell_y < String.length word_y) ->
  (forall word_x, In word_x dx -> cell_x < String.length word_x) ->
  exists out, out_ruled_of cell_x cell_y dx dy = Ret out.
Proof.
  intros Ly Lx. induction dy as [|word_y rest IH]; simpl; [now exists []|].
  destruct (any_match_returns word_y cell_y cell_x dx) as [b ->];
    [apply Ly; now left | assumption |].
  destruct IH as [out ->]; [intros w I; apply Ly; now right|].
  now eexists.
Qed.

Lemma store_ok_shrinks (c : Crossword) (d d' : domains_t) :
  store_ok c d -> shrinks d d' -> store_ok c d'.
Proof.
  intros [K F] [Ks I]. split.
  - intros v Iv. unfold dict_mem. rewrite Ks. now apply K.
  - intros v ws w G Iw.
    assert (M : dict_mem d v = true).
    { unfold dict_mem. rewrite <- Ks. apply dict_mem_get. now exists ws. }
    apply dict_mem_get in M as [ws0 G0].
    apply (F v ws0 w G0). specialize (I v). unfold dom in I.
    rewrite G, G0 in I. now apply I.
Qed.

Lemma revise_returns (c : Crossword) (x y : Var) (d : domains_t) :
  overlaps_in_range c -> store_ok c d -> dict_mem d x = true ->
  exists b, fst (revise c x y d) = Ret b.
Proof.
  intros R [K F] Mx. unfold revise.
  destruct (mem_var y (neighbors c x)) eqn:M; [|now exists false].
  apply mem_var_In, neighbors_In in M as [Iy [[cell_x cell_y] O]].
  rewrite O. destruct (R _ _ _ _ O) as [Rx Ry].
  apply K, dict_mem_get in Iy as [dy Gy]. rewrite Gy.
  apply dict_mem_get in Mx as [dx Gx]. rewrite Gx.
  destruct (out_ruled_of_returns cell_x cell_y dx dy) as [out ->].
  - intros w I. destruct (F y dy w Gy I) as [L _]. lia.
  - intros w I. destruct (F x dx w Gx I) as [L _]. lia.
  - now eexists.
Qed.

Lemma push_neighbors_In (c : Crossword) (x y : Var) (stack : list arc)
  (a b : Var) :
  In (a, b) (push_neighbors c x y stack) ->
  In (a, b) stack \/ In a (neighbors c x).
Proof.
  unfold push_neighbors.
  assert (G : forall l st,
             In (a, b) (fold_left (fun st Z => (Z, x) :: st) l st) ->
             In (a, b) st \/ In a l).
  { induction l as [|z l IH]; simpl; intros st H; [now left|].
    destruct (IH _ H) as [[[= <- <-] | I] | I]; auto. }
  intros H. destruct (G _ _ H) as [I | I]; [now left|].
  right. now apply filter_In in I.
Qed.

Lemma ac3_loop_no_exception (c : Crossword) (fuel : nat) :
  overlaps_in_range c ->
  forall stack d,
    store_ok c d ->
    (forall a b, In (a, b) stack -> dict_mem d a = true) ->
    forall e, fst (ac3_loop c fuel stack d) <> Raise e.
Proof.
  intros R. induction fuel as [|fuel IH]; intros stack d Ok St e; simpl;
    [discriminate|].
  unfold ac3_step. destruct stack as [|[x y] rest]; [discriminate|].
  assert (Mx : dict_mem d x = true) by (apply (St x y); now left).
  destruct (revise_returns c x y d R Ok Mx) as [b Eb].
  pose proof (revise_shrinks c x y d) as Sh.
  destruct (revise c x y d) as [o d1]. simpl in Eb, Sh. subst o.
  assert (Ok1 : store_ok c d1) by (eapply store_ok_shrinks; eassumption).
  assert (Keys : forall v, dict_mem d1 v = dict_mem d v).
  { intros v. unfold dict_mem. now rewrite (proj1 Sh). }
  destruct b.
  - rewrite <- Keys in Mx. apply dict_mem_get in Mx as [ws G]. rewrite G.
    destruct ws as [|w ws]; [discriminate|].
    apply IH; [assumption|]. intros a b I.
    apply push_neighbors_In in I as [I | I].
    + rewrite Keys. apply (St a b). now right.
    + apply neighbors_In in I as [I _]. now apply Ok1.
  - apply IH; [assumption|]. intros a b I. rewrite Keys.
    apply (St a b). now right.
Qed.

Lemma all_arcs_In (d : domains_t) (a b : Var) :
  In (a, b) (all_arcs d) -> In a (dict_keys d).
Proof.
  unfold all_arcs. rewrite in_flat_map. intros [v [Iv H]].
  apply in_map_iff in H as [u [[= <- <-] _]]. assumption.
Qed.

Lemma ac3_never_raises (c : Crossword) (fuel : nat)
  (arcs : option (list arc)) (d : domains_t) (e : exn) :
  overlaps_in_range c ->
  store_ok c d ->
  (forall l a b, arcs = Some l -> In (a, b) l -> dict_mem d a = true) ->
  fst (ac3 c fuel arcs d) <> Raise e.
Proof.
  intros R Ok A. unfold ac3. apply ac3_loop_no_exception; try assumption.
  assert (All : forall a b, In (a, b) (rev (all_arcs d)) ->
                            dict_mem d a = true).
  { intros a b I. apply in_rev, all_arcs_In in I.
    unfold dict_mem. now apply mem_var_In. }
  intros a b I. destruct arcs as [[|p l]|]; simpl in I.
  - now apply (All a b).
  - apply (A (p :: l) a b eq_refl). now apply in_rev.
  - now apply (All a b).
Qed.

(** X5: on a store that holds, for every variable of the puzzle, words
    of the length of the variable, with overlap indices inside the
    words, [ac3] raises no exception, whether it starts from all the arcs
    or from arcs whose first component is in the store. *)
Theorem ac3_no_exception (c : Crossword) (fuel : nat)
  (arcs : option (list arc)) (d : domains_t) (e : exn) :
  overlaps_in_range c ->
  store_ok c d ->
  (forall l a b, arcs = Some l -> In (a, b) l -> dict_mem d a = true) ->
  fst (ac3 c fuel arcs d) <> Raise e.
Proof. apply ac3_never_raises. Qed.

(** X6: on a puzzle without crossing slots [ac3] returns [True] and
    leaves the store as it was, as soon as the fuel exceeds the number
    of arcs it starts from. *)
Theorem ac3_without_overlaps (c : Crossword) (fuel : nat)
  (arcs : option (list arc)) (d : domains_t) :
  (forall x y, overlaps c x y = None) ->
  List.length (initial_stack arcs d) < fuel ->
  ac3 c fuel arcs d = (Ret true, d).
Proof.
  intros N. unfold ac3. generalize (initial_stack arcs d) as stack.
  intros stack. revert fuel.
  induction stack as [|[x y] rest IH]; intros fuel L.
  - destruct fuel; [simpl in L; lia | reflexivity].
  - destruct fuel as [|fuel]; [simpl in L; lia|]. simpl.
    rewrite (revise_no_overlap c x y d (N x y)).
    apply IH. simpl in L. lia.
Qed.

(** ** What [backtrack] adds to the assignment *)

Lemma shrinks_dom (d d' : domains_t) (v : Var) (w : string) :
  shrinks d d' -> In w (dom d' v) -> In w (dom d v).
Proof. intros [_ I] H. now apply (I v). Qed.

Lemma dict_get_set_cases {V : Type} (d : list (Var * V)) (k k' : Var)
  (v v' : V) :
  dict_get (dict_set d k v) k' = Some v' ->
  (k' = k /\ v' = v) \/ (k' <> k /\ dict_get d k' = Some v').
Proof.
  destruct (Var_eqb k' k) eqn:E.
  - apply Var_eqb_eq in E. subst k'. rewrite dict_get_set_same.
    intros [= ->]. now left.
  - apply Var_eqb_neq in E. rewrite dict_get_set_other by assumption.
    intros H. now right.
Qed.

Lemma dict_get_set_fresh {V : Type} (d : list (Var * V)) (k k' : Var)
  (v v' : V) :
  dict_get d k = None -> dict_get d k' = Some v' ->
  dict_get (dict_set d k v) k' = Some v'.
Proof.
  intros N G. rewrite dict_get_set_other; [assumption|].
  intros ->. congruence.
Qed.

(** The state after a nested call, seen from the loop that made it. *)
Lemma extends_from_nested (d0 d2 : domains_t) (st st2 st3 : state)
  (var : Var) (value : string) (o o' : outcome (option assignment_t)) :
  dict_get (assignment st) var = None ->
  In value (dom d0 var) ->
  shrinks d0 d2 ->
  assignment st2 = dict_set (assignment st) var value ->
  extends_from d2 st2 (o', st3) ->
  extends_from d0 st (o, st3).
Proof.
  intros G Iv Sh A [E1 E2]. simpl in *. rewrite A in *. split; simpl.
  - intros v w H. destruct (E1 v w H) as [H1 | H1].
    + apply dict_get_set_cases in H1 as [[-> ->] | [_ H1]];
        [now right | now left].
    + right. eapply shrinks_dom; eassumption.
  - intros v w H. apply E2. now apply dict_get_set_fresh.
Qed.

Lemma extends_from_same (d0 : domains_t) (st st' : state)
  (r : outcome (option assignment_t) * state) :
  assignment st' = assignment st ->
  extends_from d0 st' r -> extends_from d0 st r.
Proof. unfold extends_from. now intros ->. Qed.

Lemma extends_from_assigned (d0 : domains_t) (st st1 : state) (var : Var)
  (value : string) (o : outcome (option assignment_t)) :
  dict_get (assignment st) var = None ->
  In value (dom d0 var) ->
  assignment st1 = dict_set (assignment st) var value ->
  extends_from d0 st (o, st1).
Proof.
  intros G Iv A. split; simpl; rewrite A.
  - intros v w H.
    apply dict_get_set_cases in H as [[-> ->] | [_ H]]; [now right | now left].
  - intros v w H. now apply dict_get_set_fresh.
Qed.

Lemma extends_from_undo (d0 : domains_t)
  (next : state -> outcome (option assignment_t) * state)
  (var : Var) (value : string) (st st3 : state) :
  dict_get (assignment st) var = None ->
  (assignment st3 = dict_set (assignment st) var value
   \/ dict_mem (assignment st3) var = false) ->
  (forall o, extends_from d0 st (o, st3)) ->
  (forall st4, assignment st4 = assignment st ->
               domains st4 = domains st3 ->
               extends_from d0 st4 (next st4)) ->
  extends_from d0 st (undo var st3 next).
Proof.
  intros G A Stop IH. unfold undo.
  destruct (dict_mem (assignment st3) var) eqn:M; [|apply Stop].
  destruct A as [A | A]; [|discriminate].
  assert (D : dict_del (assignment st3) var = assignment st)
    by (rewrite A; now apply dict_del_set_fresh).
  eapply extends_from_same with (st' := with_assignment st3 _);
    [|apply IH]; simpl; congruence.
Qed.

Lemma backtrack_values_extends (c : Crossword)
  (rec : state -> outcome (option assignment_t) * state)
  (fuel : nat) (var : Var) (size : nat) (d0 : domains_t) :
  (forall st, search_post c st (rec st)) ->
  (forall st, extends_from (domains st) st (rec st)) ->
  forall vals st,
    shrinks d0 (domains st) ->
    incl vals (dom d0 var) ->
    dict_get (assignment st) var = None ->
    extends_from d0 st (backtrack_values c rec fuel var size vals st).
Proof.
  intros Hpost Hrec vals.
  induction vals as [|value rest IH]; intros st Sh Iv G.
  - simpl. destruct (negb (List.length (dom (domains st) var) =? size));
      split; simpl; auto.
  - rewrite backtrack_values_cons.
    destruct (negb (List.length (dom (domains st) var) =? size));
      [split; simpl; auto|].
    cbv zeta. simpl assignment. simpl domains.
    assert (Ival : In value (dom d0 var)) by (apply Iv; now left).
    assert (Irest : incl rest (dom d0 var))
      by (intros w I; apply Iv; now right).
    assert (Next : forall st3,
               shrinks d0 (domains st3) ->
               forall st4, assignment st4 = assignment st ->
                           domains st4 = domains st3 ->
                           extends_from d0 st4
                             (backtrack_values c rec fuel var size rest st4)).
    { intros st3 Sh3 st4 A4 D4. apply IH; [congruence | assumption | congruence]. }
    destruct (consistent c (dict_set (assignment st) var value))
      as [[|]|e|] eqn:C.
    + pose proof (ac3_shrinks c fuel (Some (scoped_arcs c var)) (domains st))
        as Sh2.
      destruct (ac3 c fuel (Some (scoped_arcs c var)) (domains st))
        as [[b|e|] d2]; simpl in Sh2;
        try (eapply extends_from_assigned; simpl; eauto; fail).
      match goal with |- context [rec ?s] => set (st2 := s) end.
      pose proof (Hpost st2) as [Sh3 [_ O]].
      pose proof (Hrec st2) as E.
      assert (Sh02 : shrinks d0 d2) by (eapply shrinks_trans; eassumption).
      assert (Sh03 : shrinks d0 (domains (snd (rec st2))))
        by (eapply shrinks_trans; eassumption).
      assert (Stop : forall o,
                 extends_from d0 st (o, snd (rec st2))).
      { intros o.
        apply (extends_from_nested d0 d2 st st2 (snd (rec st2)) var value
                 o (fst (rec st2)) G Ival Sh02 eq_refl).
        destruct (rec st2); exact E. }
      destruct (rec st2) as [[[[|e a]|]|e|] st3]; simpl in *;
        try (apply Stop).
      * eapply extends_from_undo with (value := value);
          first [ eassumption | now apply Next
                | right; destruct O as [<- _]; reflexivity ].
      * eapply extends_from_undo with (value := value);
          first [ eassumption | now apply Next | now left ].
    + eapply extends_from_undo with (value := value);
        first [ eassumption | now apply Next | now left
              | intros o; eapply extends_from_assigned; simpl; eauto ].
    + eapply extends_from_assigned; simpl; eauto.
    + eapply extends_from_assigned; simpl; eauto.
Qed.

Lemma backtrack_extends_from (c : Crossword) (fuel : nat) :
  forall st, extends_from (domains st) st (backtrack c fuel st).
Proof.
  induction fuel as [|fuel IH]; intros st; [split; simpl; auto|].
  simpl.
  destruct (assignment_complete (domains st) (assignment st));
    [split; simpl; auto|].
  destruct (select_unassigned_variable c (domains st) (assignment st))
    as [var|e|] eqn:Sel; try (split; simpl; auto; fail).
  apply select_unassigned in Sel as [G _].
  destruct (dict_get (domains st) var) as [vals|] eqn:Gv;
    [|split; simpl; auto].
  apply (extends_from_same (domains st) st (log Call st)); [reflexivity|].
  apply backtrack_values_extends; simpl; try assumption.
  - apply backtrack_post.
  - apply shrinks_refl.
  - unfold dom. rewrite Gv. apply incl_refl.
Qed.

(** X7: however a call of [backtrack] ends, the assignment it leaves
    extends the assignment it was given, and every word it added is in
    the domain that its variable had when the call started. *)
Theorem backtrack_extends_assignment (c : Crossword) (fuel : nat)
  (st : state) :
  (forall v w,
     dict_get (assignment (snd (backtrack c fuel st))) v = Some w ->
     dict_get (assignment st) v = Some w \/ In w (dom (domains st) v))
  /\ (forall v w,
        dict_get (assignment st) v = Some w ->
        dict_get (assignment (snd (backtrack c fuel st))) v = Some w).
Proof. apply backtrack_extends_from. Qed.

Lemma init_domains_dom (c : Crossword) (v : Var) (w : string) :
  In w (dom (init_domains c) v) -> In w (words c).
Proof.
  unfold dom, init_domains.
  induction (variables c) as [|u r IH]; simpl; [intros []|].
  destruct (Var_eqb v u); [trivial | exact IH].
Qed.

(** X8: an assignment returned by [solve] uses only words of the
    vocabulary, each of them still in the domain of its variable after
    node consistency and the first run of [ac3]. *)
Theorem solve_from_vocabulary (c : Crossword) (fuel : nat)
  (a : assignment_t) (st : state) :
  solve c fuel = (Ret (Some a), st) -> from_vocabulary c a.
Proof.
  unfold solve.
  pose proof (enforce_node_consistency_shrinks c (init_domains c)) as S1.
  destruct (enforce_node_consistency c (init_domains c)) as [[[]|e|] d1];
    try discriminate.
  pose proof (ac3_shrinks c fuel None d1) as S2.
  destruct (ac3 c fuel None d1) as [[b|e|] d2]; try discriminate.
  simpl in S1, S2. intros H.
  pose proof (backtrack_post c fuel (mkState d2 [] [])) as [_ [_ O]].
  pose proof (backtrack_extends_from c fuel (mkState d2 [] [])) as [E _].
  rewrite H in O, E. simpl in O, E. destruct O as [-> _].
  intros v w G. destruct (E v w G) as [N | I]; [discriminate|].
  apply (init_domains_dom c v).
  eapply shrinks_dom; [exact S1|]. eapply shrinks_dom; eassumption.
Qed.

(** ** No exception from the search on well-formed puzzles *)

Lemma consistent_neighbors_returns (c : Crossword) (a : assignment_t)
  (word1 : Var) (w1 : string) (ns : list Var) :
  overlaps_in_range c -> assignment_fits a ->
  String.length w1 = var_length word1 ->
  (forall n, In n ns -> exists ij, overlaps c word1 n = Some ij) ->
  exists b, consistent_neighbors c a word1 w1 ns = Ret b.
Proof.
  intros R F L N. induction ns as [|n rest IH]; simpl; [now exists true|].
  assert (IH' : exists b, consistent_neighbors c a word1 w1 rest = Ret b)
    by (apply IH; intros m I; apply N; now right).
  destruct (dict_get a n) as [w2|] eqn:G; [|assumption].
  destruct (N n (or_introl eq_refl)) as [[cell1 cell2] O]. rewrite O.
  destruct (R _ _ _ _ O) as [R1 R2].
  destruct (get_in_range cell1 w1) as [ch1 ->]; [lia|].
  destruct (get_in_range cell2 w2) as [ch2 ->]; [rewrite (F n w2 G); lia|].
  destruct (Ascii.eqb ch1 ch2); [assumption | now exists false].
Qed.

Lemma consistent_returns (c : Crossword) (a : assignment_t) :
  overlaps_in_range c -> assignment_fits a ->
  exists b, consistent c a = Ret b.
Proof.
  intros R F. unfold consistent.
  destruct (negb (List.length (nodup string_dec (dict_values a))
                  =? List.length a)); [now exists false|].
  generalize a at 2 as entries.
  induction entries as [|[k w] rest IH]; simpl; [now exists true|].
  destruct (String.length w =? var_length k) eqn:L; simpl;
    [|now exists false].
  apply Nat.eqb_eq in L.
  destruct (consistent_neighbors_returns c a k w (neighbors c k) R F L)
    as [b ->].
  - intros n I. now apply neighbors_In in I as [_ H].
  - destruct b; [assumption | now exists false].
Qed.

Lemma select_incomplete (c : Crossword) (d : domains_t) (a : assignment_t) :
  assignment_complete d a = false ->
  exists v, select_unassigned_variable c d a = Ret v.
Proof.
  intros N. unfold select_unassigned_variable.
  destruct (sorted (select_key c d) pair_lt (unassigned d a)) as [|h r] eqn:E;
    [|now exists h].
  apply sorted_nil, unassigned_nil in E. congruence.
Qed.

Lemma dict_get_keys {V : Type} (d : list (Var * V)) (k : Var) (v : V) :
  dict_get d k = Some v -> In k (dict_keys d).
Proof.
  intros G. apply mem_var_In. apply dict_mem_get. now exists v.
Qed.

Lemma assignment_fits_set (a : assignment_t) (var : Var) (value : string) :
  assignment_fits a -> String.length value = var_length var ->
  assignment_fits (dict_set a var value).
Proof.
  intros F L v w G.
  apply dict_get_set_cases in G as [[-> ->] | [_ G]]; [assumption|].
  now apply F.
Qed.

Lemma raises_only_undo
  (next : state -> outcome (option assignment_t) * state)
  (var : Var) (value : string) (a0 : assignment_t) (st3 : state) :
  dict_get a0 var = None ->
  assignment st3 = dict_set a0 var value ->
  (forall st4, assignment st4 = a0 -> domains st4 = domains st3 ->
               raises_only_runtime_error (fst (next st4))) ->
  raises_only_runtime_error (fst (undo var st3 next)).
Proof.
  intros G A IH. unfold undo.
  assert (M : dict_mem (assignment st3) var = true).
  { rewrite A. apply dict_mem_get. exists value. apply dict_get_set_same. }
  rewrite M. apply IH; simpl; [|reflexivity].
  rewrite A. now apply dict_del_set_fresh.
Qed.

Lemma backtrack_values_raises (c : Crossword)
  (rec : state -> outcome (option assignment_t) * state)
  (fuel : nat) (var : Var) (size : nat) :
  overlaps_in_range c ->
  (forall st, search_post c st (rec st)) ->
  (forall st, store_ok c (domains st) -> assignment_fits (assignment st) ->
              raises_only_runtime_error (fst (rec st))) ->
  forall vals st,
    store_ok c (domains st) ->
    (forall w, In w vals -> String.length w = var_length var) ->
    dict_mem (domains st) var = true ->
    dict_get (assignment st) var = None ->
    assignment_fits (assignment st) ->
    raises_only_runtime_error
      (fst (backtrack_values c rec fuel var size vals st)).
Proof.
  intros R Hpost Hrec vals.
  induction vals as [|value rest IH]; intros st Ok Fv Mv G Fa.
  - simpl. destruct (negb (List.length (dom (domains st) var) =? size));
      simpl; intros e; [now intros [= <-] | discriminate].
  - rewrite backtrack_values_cons.
    destruct (negb (List.length (dom (domains st) var) =? size));
      [simpl; intros e; now intros [= <-]|].
    cbv zeta. simpl assignment. simpl domains.
    assert (Fa1 : assignment_fits (dict_set (assignment st) var value)).
    { apply assignment_fits_set; [assumption|]. apply Fv. now left. }
    assert (Next : forall st3,
               shrinks (domains st) (domains st3) ->
               forall st4, assignment st4 = assignment st ->
                           domains st4 = domains st3 ->
                           raises_only_runtime_error
                             (fst (backtrack_values c rec fuel var size
                                                    rest st4))).
    { intros st3 Sh3 st4 A4 D4. apply IH.
      - rewrite D4. eapply store_ok_shrinks; eassumption.
      - intros w I. apply Fv. now right.
      - rewrite D4. unfold dict_mem. rewrite (proj1 Sh3). exact Mv.
      - now rewrite A4.
      - now rewrite A4. }
    destruct (consistent_returns c _ R Fa1) as [b ->].
    destruct b.
    + pose proof (ac3_shrinks c fuel (Some (scoped_arcs c var)) (domains st))
        as Sh2.
      assert (NoE : forall e,
                 fst (ac3 c fuel (Some (scoped_arcs c var)) (domains st))
                 <> Raise e).
      { intros e. apply ac3_never_raises; try assumption.
        intros l x y [= <-] I. unfold scoped_arcs in I.
        apply in_map_iff in I as [n [[= <- <-] I]].
        apply neighbors_In in I as [I _]. now apply Ok. }
      destruct (ac3 c fuel (Some (scoped_arcs c var)) (domains st))
        as [[b|e|] d2]; simpl in Sh2, NoE.
      * match goal with |- context [rec ?s] => set (st2 := s) end.
        assert (Ok2 : store_ok c (domains st2))
          by (eapply store_ok_shrinks; eassumption).
        pose proof (Hpost st2) as [Sh3 [_ O]].
        pose proof (Hrec st2 Ok2 Fa1) as E.
        assert (Sh03 : shrinks (domains st) (domains (snd (rec st2))))
          by (eapply shrinks_trans; eassumption).
        destruct (rec st2) as [[[[|e a]|]|e|] st3]; simpl in *.
        -- exfalso. destruct O as [_ [Cpl _]].
           unfold assignment_complete in Cpl. rewrite forallb_forall in Cpl.
           assert (Iv : In var (dict_keys d2)).
           { rewrite (proj1 Sh2). now apply mem_var_In. }
           specialize (Cpl var Iv). discriminate.
        -- intros e0. discriminate.
        -- eapply raises_only_undo; [exact G | exact O | now apply Next].
        -- exact E.
        -- intros e0. discriminate.
      * exfalso. now apply (NoE e).
      * intros e0. discriminate.
    + eapply raises_only_undo; [exact G | reflexivity |].
      apply Next. apply shrinks_refl.
Qed.

Lemma backtrack_raises (c : Crossword) (fuel : nat) :
  overlaps_in_range c ->
  forall st,
    store_ok c (domains st) -> assignment_fits (assignment st) ->
    raises_only_runtime_error (fst (backtrack c fuel st)).
Proof.
  intros R. induction fuel as [|fuel IH]; intros st Ok Fa;
    [intros e; discriminate|].
  simpl.
  destruct (assignment_complete (domains st) (assignment st)) eqn:Cpl;
    [intros e; discriminate|].
  destruct (select_incomplete c _ _ Cpl) as [var Sel]. rewrite Sel.
  apply select_unassigned in Sel as [G Iv].
  destruct (dict_keys_get _ _ Iv) as [vals Gv]. rewrite Gv.
  apply backtrack_values_raises; simpl; try assumption.
  - apply backtrack_post.
  - intros w I. now destruct (proj2 Ok var vals w Gv I).
  - now apply mem_var_In.
Qed.

Lemma node_consistent_store_ok (c : Crossword) (d1 : domains_t) :
  NoDup (variables c) -> NoDup (words c) ->
  enforce_node_consistency c (init_domains c) = (Ret tt, d1) ->
  store_ok c d1.
Proof.
  intros Nv Nw E.
  destruct (enforce_node_consistency_first c Nv Nw) as [d1' [E' P]].
  rewrite E in E'. injection E' as <-.
  pose proof (enforce_node_consistency_shrinks c (init_domains c)) as [K _].
  rewrite E in K. simpl in K. rewrite init_domains_keys in K. split.
  - intros v I. apply dict_mem_get. eexists. now apply P.
  - intros v ws w G I.
    assert (Iv : In v (variables c)).
    { rewrite <- K. eapply dict_get_keys. eassumption. }
    rewrite (P v Iv) in G. injection G as <-.
    apply filter_In in I as [I F]. unfold fits in F.
    apply Nat.eqb_eq in F. now split.
Qed.

(** X9: on a puzzle whose variables and words are sets and whose overlap
    indices are inside the slots, [solve] raises no [KeyError],
    [IndexError], [TypeError] or [AttributeError]: the only exception it
    can end with is the [RuntimeError] of a domain that changed size
    while [backtrack] was iterating over it. *)
Theorem solve_raises_only_runtime_error (c : Crossword) (fuel : nat)
  (e : exn) :
  NoDup (variables c) -> NoDup (words c) -> overlaps_in_range c ->
  fst (solve c fuel) = Raise e -> e = RuntimeError.
Proof.
  intros Nv Nw R. unfold solve.
  destruct (enforce_node_consistency_first c Nv Nw) as [d1 [E _]].
  pose proof (node_consistent_store_ok c d1 Nv Nw E) as Ok1.
  rewrite E.
  pose proof (ac3_shrinks c fuel None d1) as Sh.
  assert (NoE : forall e0, fst (ac3 c fuel None d1) <> Raise e0).
  { intros e0. apply ac3_never_raises; try assumption. discriminate. }
  destruct (ac3 c fuel None d1) as [[b|e0|] d2]; simpl in Sh, NoE.
  - apply backtrack_raises; simpl; try assumption.
    + eapply store_ok_shrinks; eassumption.
    + intros v w G. discriminate.
  - exfalso. now apply (NoE e0).
  - discriminate.
Qed.

(** ** [letter_grid] *)

Arguments cell_of : simpl never.

Lemma list_set_some {A : Type} (l : list A) (n : nat) (x : A) :
  n < List.length l ->
  exists l', list_set l n x = Some l'
             /\ List.length l' = List.length l
             /\ forall m, nth_error l' m
                          = if m =? n then Some x else nth_error l m.
Proof.
  revert n. induction l as [|y r IH]; simpl; intros n L; [lia|].
  destruct n as [|n].
  - eexists. split; [reflexivity|]. split; [reflexivity|].
    intros [|m]; reflexivity.
  - destruct (IH n) as [r' [E [Len N]]]; [lia|]. rewrite E.
    eexists. split; [reflexivity|]. split; [simpl; now rewrite Len|].
    intros [|m]; simpl; [reflexivity | apply N].
Qed.

Lemma list_set_none {A : Type} (l : list A) (n : nat) (x : A) :
  List.length l <= n -> list_set l n x = None.
Proof.
  revert n. induction l as [|y r IH]; simpl; intros n L; [reflexivity|].
  destruct n as [|n]; [lia|]. rewrite IH; [reflexivity | lia].
Qed.

Lemma well_shaped_row (height width : nat) (g : grid) (i : nat) :
  well_shaped height width g ->
  (i < height -> exists row, nth_error g i = Some row
                             /\ List.length row = width)
  /\ (height <= i -> nth_error g i = None).
Proof.
  intros [L F]. split.
  - intros Li. destruct (nth_error g i) as [row|] eqn:E.
    + exists row. split; [reflexivity|].
      rewrite Forall_forall in F. apply F. eapply nth_error_In. eassumption.
    + apply nth_error_None in E. lia.
  - intros Li. apply nth_error_None. lia.
Qed.

(** One write on a grid of the given size. *)
Lemma grid_set_spec (height width : nat) (g : grid) (i j : nat) (ch : ascii) :
  well_shaped height width g ->
  (i < height /\ j < width ->
   exists g', grid_set g i j ch = Ret g'
              /\ well_shaped height width g'
              /\ forall i' j',
                   cell_at g' i' j'
                   = if (i' =? i) && (j' =? j) then Some ch
                     else cell_at g i' j')
  /\ (~ (i < height /\ j < width) -> grid_set g i j ch = Raise IndexError).
Proof.
  intros W. destruct (well_shaped_row height width g i W) as [Hin Hout].
  unfold grid_set. split.
  - intros [Li Lj]. destruct (Hin Li) as [row [E Lr]]. rewrite E.
    destruct (list_set_some row j (Some ch)) as [row' [E1 [L1 N1]]]; [lia|].
    rewrite E1.
    destruct (list_set_some g i row') as [g' [E2 [L2 N2]]];
      [destruct W; lia|].
    rewrite E2. exists g'. split; [reflexivity|]. split.
    + destruct W as [Lg F]. split; [lia|].
      apply Forall_forall. intros r I.
      apply In_nth_error in I as [m Hm]. rewrite N2 in Hm.
      destruct (m =? i).
      * injection Hm as <-. lia.
      * rewrite Forall_forall in F. apply F. eapply nth_error_In. eassumption.
    + intros i' j'. unfold cell_at. rewrite N2.
      destruct (i' =? i) eqn:Ei; simpl; [|reflexivity].
      apply Nat.eqb_eq in Ei. subst i'. rewrite E, N1.
      destruct (j' =? j); reflexivity.
  - intros N. destruct (Nat.lt_ge_cases i height) as [Li | Li].
    + destruct (Hin Li) as [row [E Lr]]. rewrite E.
      rewrite list_set_none; [reflexivity | lia].
    + now rewrite (Hout Li).
Qed.

Lemma repeat_well_shaped (height width : nat) :
  well_shaped height width (repeat (repeat None width) height).
Proof.
  split; [apply repeat_length|].
  apply Forall_forall. intros row I. apply repeat_spec in I. subst row.
  apply repeat_length.
Qed.

Lemma repeat_cell_at (height width i j : nat) :
  cell_at (repeat (repeat None width) height) i j = None.
Proof.
  unfold cell_at.
  destruct (nth_error (repeat (repeat None width) height) i) as [row|] eqn:E;
    [|reflexivity].
  apply nth_error_In, repeat_spec in E. subst row.
  destruct (nth_error (repeat None width) j) as [c|] eqn:E; [|reflexivity].
  apply nth_error_In, repeat_spec in E. now subst c.
Qed.

Lemma write_word_writes (v : Var) (word : string) :
  forall k g, write_word v k word g = apply_writes (word_writes v k word) g.
Proof.
  induction word as [|ch rest IH]; intros k g; [reflexivity|].
  cbn [write_word word_writes]. destruct (cell_of v k) as [i j].
  cbn [fst snd apply_writes].
  destruct (grid_set g i j ch); try reflexivity. apply IH.
Qed.

Lemma apply_writes_app (l1 l2 : list (nat * nat * ascii)) :
  forall g,
    apply_writes (l1 ++ l2) g
    = match apply_writes l1 g with
      | Ret g' => apply_writes l2 g'
      | o => o
      end.
Proof.
  induction l1 as [|[[i j] ch] r IH]; intros g; simpl; [reflexivity|].
  destruct (grid_set g i j ch); try reflexivity. apply IH.
Qed.

Lemma write_all_writes (a : assignment_t) :
  forall g, write_all a g = apply_writes (all_writes a) g.
Proof.
  unfold all_writes.
  induction a as [|[v word] rest IH]; intros g; simpl; [reflexivity|].
  rewrite apply_writes_app, write_word_writes.
  destruct (apply_writes (word_writes v 0 word) g); try reflexivity. apply IH.
Qed.

Lemma word_writes_In (v : Var) (word : string) (i j : nat) (ch : ascii) :
  forall k0,
    In (i, j, ch) (word_writes v k0 word) <->
    exists k, k0 <= k /\ cell_of v k = (i, j)
              /\ String.get (k - k0) word = Some ch.
Proof.
  induction word as [|c rest IH]; intros k0; simpl.
  - split; [intros [] | intros [k [_ [_ H]]]; discriminate].
  - rewrite IH. split.
    + intros [H | [k [L [E G]]]].
      * assert (E : cell_of v k0 = (i, j)) by congruence.
        assert (c = ch) as -> by congruence.
        exists k0. rewrite Nat.sub_diag. repeat split; [lia | assumption].
      * exists k. replace (k - k0) with (S (k - S k0)) by lia.
        repeat split; [lia | assumption | assumption].
    + intros [k [L [E G]]].
      destruct (k - k0) as [|m] eqn:D.
      * left. assert (k = k0) by lia. subst k. injection G as <-.
        now rewrite E.
      * right. exists k. replace (k - S k0) with m by lia.
        repeat split; [lia | assumption | assumption].
Qed.

Lemma all_writes_In (a : assignment_t) (i j : nat) (ch : ascii) :
  In (i, j, ch) (all_writes a) <-> letter_in a i j ch.
Proof.
  unfold all_writes, letter_in. rewrite in_flat_map. split.
  - intros [[v word] [I H]]. simpl in H.
    apply word_writes_In in H as [k [_ [E G]]]. rewrite Nat.sub_0_r in G.
    now exists v, word, k.
  - intros [v [word [k [I [E G]]]]]. exists (v, word). split; [assumption|].
    simpl. apply word_writes_In. exists k. rewrite Nat.sub_0_r.
    repeat split; [lia | assumption | assumption].
Qed.

(** A sequence of writes on a grid of the given size: it raises
    [IndexError] at the first write outside the grid; otherwise every
    filled cell holds a written letter or what it held before, and a
    letter is visible when all the writes to its cell agree. *)
Lemma apply_writes_spec (height width : nat) (ws : list (nat * nat * ascii)) :
  forall g,
    well_shaped height width g ->
    ((forall i j ch, In (i, j, ch) ws -> i < height /\ j < width) ->
     exists g',
       apply_writes ws g = Ret g' /\ well_shaped height width g'
       /\ (forall i j ch, cell_at g' i j = Some ch ->
                          In (i, j, ch) ws \/ cell_at g i j = Some ch)
       /\ (forall i j, (forall ch, ~ In (i, j, ch) ws) ->
                       cell_at g' i j = cell_at g i j)
       /\ ((forall i j c1 c2, In (i, j, c1) ws -> In (i, j, c2) ws -> c1 = c2) ->
           forall i j ch, In (i, j, ch) ws -> cell_at g' i j = Some ch))
    /\ (~ (forall i j ch, In (i, j, ch) ws -> i < height /\ j < width) ->
        apply_writes ws g = Raise IndexError).
Proof.
  induction ws as [|[[i0 j0] c0] rest IH]; intros g W.
  - split.
    + intros _. exists g. simpl. repeat split; try assumption; try tauto.
      * apply W.
      * apply W.
    + intros N. exfalso. apply N. intros i j ch [].
  - destruct (grid_set_spec height width g i0 j0 c0 W) as [Hin Hout].
    split.
    + intros B.
      destruct (Hin (B i0 j0 c0 (or_introl eq_refl))) as [g1 [E1 [W1 C1]]].
      destruct (IH g1 W1) as [IHin _].
      destruct IHin as [g' [E [W' [P1 [P2 P3]]]]];
        [intros i j ch I; apply (B i j ch); now right|].
      exists g'. simpl. rewrite E1. split; [assumption|].
      split; [assumption|]. split; [|split].
      * intros i j ch H. destruct (P1 i j ch H) as [I | H1];
          [left; now right|].
        rewrite C1 in H1.
        destruct ((i =? i0) && (j =? j0)) eqn:Q; [|now right].
        apply andb_true_iff in Q as [Qi Qj].
        apply Nat.eqb_eq in Qi, Qj. subst. injection H1 as <-.
        left. now left.
      * intros i j N. rewrite P2 by (intros ch I; apply (N ch); now right).
        rewrite C1.
        destruct ((i =? i0) && (j =? j0)) eqn:Q; [|reflexivity].
        apply andb_true_iff in Q as [Qi Qj].
        apply Nat.eqb_eq in Qi, Qj. subst.
        exfalso. apply (N c0). now left.
      * intros A i j ch I.
        assert (Dec : (exists c, In (i, j, c) rest)
                      \/ (forall c, ~ In (i, j, c) rest)).
        { clear. induction rest as [|[[i1 j1] c1] r IHr].
          - right. intros c [].
          - destruct IHr as [[c Hc] | Hn]; [left; exists c; now right|].
            destruct ((i =? i1) && (j =? j1)) eqn:Q.
            + apply andb_true_iff in Q as [Qi Qj].
              apply Nat.eqb_eq in Qi, Qj. subst.
              left. exists c1. now left.
            + right. intros c [[= -> -> _] | Hc]; [|now apply (Hn c)].
              rewrite !Nat.eqb_refl in Q. discriminate. }
        destruct Dec as [[c Hc] | Hn].
        -- assert (c = ch) by (apply (A i j); [now right | assumption]).
           subst c. apply P3; [|assumption].
           intros i' j' c1 c2 H1 H2. apply (A i' j'); now right.
        -- destruct I as [[= -> -> ->] | I]; [|destruct (Hn ch I)].
           rewrite (P2 i j Hn), C1, !Nat.eqb_refl. reflexivity.
    + intros N. simpl.
      destruct (Nat.lt_ge_cases i0 height) as [Li | Li];
        [destruct (Nat.lt_ge_cases j0 width) as [Lj | Lj]|].
      * destruct (Hin (conj Li Lj)) as [g1 [E1 [W1 _]]]. rewrite E1.
        apply (IH g1 W1). intros B. apply N.
        intros i j ch [[= <- <- <-] | I]; [now split | now apply (B i j ch)].
      * rewrite Hout; [reflexivity | lia].
      * rewrite Hout; [reflexivity | lia].
Qed.

Lemma writes_inside_dec (height width : nat)
  (ws : list (nat * nat * ascii)) :
  (forall i j ch, In (i, j, ch) ws -> i < height /\ j < width)
  \/ ~ (forall i j ch, In (i, j, ch) ws -> i < height /\ j < width).
Proof.
  induction ws as [|[[i0 j0] c0] rest IH].
  - left. intros i j ch [].
  - destruct IH as [B | N].
    + destruct (Nat.lt_ge_cases i0 height) as [Li | Li];
        [destruct (Nat.lt_ge_cases j0 width) as [Lj | Lj]|].
      * left. intros i j ch [[= <- <- <-] | I];
          [now split | now apply (B i j ch)].
      * right. intros H.
        destruct (H i0 j0 c0 (or_introl eq_refl)). lia.
      * right. intros H.
        destruct (H i0 j0 c0 (or_introl eq_refl)). lia.
    + right. intros H. apply N. intros i j ch I. apply (H i j ch). now right.
Qed.

(** X10: [letter_grid] returns a grid of [height] rows of [width] cells
    when every letter of every assigned word falls inside the grid, and
    raises [IndexError] otherwise. *)
Theorem letter_grid_bounds (height width : nat) (a : assignment_t) :
  (inside height width a
   /\ exists g, letter_grid height width a = Ret g
                /\ well_shaped height width g)
  \/ (~ inside height width a
      /\ letter_grid height width a = Raise IndexError).
Proof.
  unfold letter_grid, inside. rewrite write_all_writes.
  destruct (apply_writes_spec height width (all_writes a) _
              (repeat_well_shaped height width)) as [Hin Hout].
  destruct (writes_inside_dec height width (all_writes a)) as [B | N].
  - left. split.
    + intros i j ch L. apply (B i j ch). now apply all_writes_In.
    + destruct (Hin B) as [g [E [W _]]]. now exists g.
  - right. split.
    + intros B. apply N. intros i j ch I. apply (B i j ch).
      now apply all_writes_In.
    + now apply Hout.
Qed.

(** X11: in the grid that [letter_grid] returns, a cell holds a letter
    only if some assigned word puts that letter there; when the words
    agree wherever their slots share a cell, the cell holds exactly the
    letter the words put there, and [None] when no word covers it. *)
Theorem letter_grid_cells (height width : nat) (a : assignment_t)
  (g : grid) :
  letter_grid height width a = Ret g ->
  (forall i j ch, cell_at g i j = Some ch -> letter_in a i j ch)
  /\ (agree a ->
      forall i j ch, cell_at g i j = Some ch <-> letter_in a i j ch).
Proof.
  unfold letter_grid. rewrite write_all_writes. intros E.
  destruct (apply_writes_spec height width (all_writes a) _
              (repeat_well_shaped height width)) as [Hin Hout].
  assert (B : forall i j ch,
             In (i, j, ch) (all_writes a) -> i < height /\ j < width).
  { destruct (writes_inside_dec height width (all_writes a)) as [B | N];
      [assumption|].
    rewrite (Hout N) in E. discriminate. }
  destruct (Hin B) as [g' [E' [_ [P1 [_ P3]]]]].
  rewrite E in E'. injection E' as <-.
  assert (Q : forall i j ch, cell_at g i j = Some ch -> letter_in a i j ch).
  { intros i j ch H. destruct (P1 i j ch H) as [I | H0].
    - now apply all_writes_In.
    - rewrite repeat_cell_at in H0. discriminate. }
  split; [assumption|].
  intros A i j ch. split; [apply Q|].
  intros L. apply P3; [|now apply all_writes_In].
  intros i' j' c1 c2 I1 I2. apply (A i' j'); now apply all_writes_In.
Qed.

(** ** [sorted] and [order_domain_values] *)

Lemma sorted_insert_perm {A K : Type} (key : A -> K)
  (key_lt : K -> K -> bool) (x : A) (l : list A) :
  Permutation (sorted_insert key key_lt x l) (x :: l).
Proof.
  induction l as [|y r IH]; simpl; [apply Permutation_refl|].
  destruct (key_lt (key y) (key x)); [|apply Permutation_refl].
  eapply perm_trans; [apply perm_skip, IH | apply perm_swap].
Qed.

Lemma sorted_perm {A K : Type} (key : A -> K) (key_lt : K -> K -> bool)
  (l : list A) : Permutation (sorted key key_lt l) l.
Proof.
  induction l as [|x r IH]; simpl; [apply perm_nil|].
  eapply perm_trans; [apply sorted_insert_perm | now apply perm_skip].
Qed.

Lemma sorted_insert_ordered {A : Type} (key : A -> nat) (x : A)
  (l : list A) :
  StronglySorted (fun u w => key u <= key w) l ->
  StronglySorted (fun u w => key u <= key w) (sorted_insert key Nat.ltb x l).
Proof.
  induction 1 as [|y r S IH F]; simpl.
  - constructor; constructor.
  - destruct (key y <? key x) eqn:L.
    + apply Nat.ltb_lt in L. constructor; [assumption|].
      apply Forall_forall. intros w I.
      apply (sorted_insert_In key Nat.ltb) in I as [-> | I]; [lia|].
      rewrite Forall_forall in F. now apply F.
    + apply Nat.ltb_ge in L. constructor; [now constructor|].
      constructor; [assumption|].
      rewrite Forall_forall in F. apply Forall_forall. intros w I.
      specialize (F w I). lia.
Qed.

Lemma sorted_ordered {A : Type} (key : A -> nat) (l : list A) :
  StronglySorted (fun u w => key u <= key w) (sorted key Nat.ltb l).
Proof.
  induction l as [|x r IH]; simpl; [constructor|].
  now apply sorted_insert_ordered.
Qed.

Lemma order_neighbors_empty (d : domains_t) (ns : list Var) :
  (forall n, In n ns -> dict_get d n = Some []) ->
  order_neighbors d ns = Ret 0.
Proof.
  induction ns as [|n rest IH]; intros H; simpl; [reflexivity|].
  rewrite (H n (or_introl eq_refl)). apply IH.
  intros m I. apply H. now right.
Qed.

Lemma order_counts_empty (d : domains_t) (a : assignment_t) (ns : list Var)
  (vals : list string) :
  order_neighbors d ns = Ret 0 ->
  order_counts d a ns vals
  = Ret (map (fun value => (value, count_domains d value)) vals).
Proof.
  intros N. induction vals as [|value rest IH]; simpl; [reflexivity|].
  unfold word_in_keys. now rewrite N, IH.
Qed.

Lemma strongly_sorted_map_fst (f : string -> nat) (l : list (string * nat)) :
  (forall p, In p l -> snd p = f (fst p)) ->
  StronglySorted (fun p q => snd p <= snd q) l ->
  StronglySorted (fun u w => f u <= f w) (map fst l).
Proof.
  intros E. induction 1 as [|p r S IH F]; simpl; constructor.
  - apply IH. intros q I. apply E. now right.
  - apply Forall_forall. intros u I.
    apply in_map_iff in I as [q [<- I]].
    rewrite Forall_forall in F. specialize (F q I).
    rewrite <- (E p (or_introl eq_refl)), <- (E q (or_intror I)).
    assumption.
Qed.

(** X12: for a variable whose neighbours all have an empty domain, in
    particular for a variable that crosses nothing,
    [order_domain_values] returns the values of its domain, each once,
    in ascending order of the number of variables whose domain holds the
    value. *)
Theorem order_domain_values_isolated (c : Crossword) (d : domains_t)
  (var : Var) (a : assignment_t) (vals : list string) :
  dict_get d var = Some vals ->
  (forall n, In n (neighbors c var) -> dict_get d n = Some []) ->
  exists l,
    order_domain_values c d var a = Ret l
    /\ Permutation l vals
    /\ StronglySorted
         (fun u w => count_domains d u <= count_domains d w) l.
Proof.
  intros G N. unfold order_domain_values. rewrite G.
  rewrite (order_counts_empty d a _ vals (order_neighbors_empty d _ N)).
  set (values := map (fun value => (value, count_domains d value)) vals).
  exists (map fst (sorted snd Nat.ltb values)).
  split; [reflexivity|]. split.
  - eapply perm_trans; [apply Permutation_map, sorted_perm|].
    unfold values. rewrite map_map. simpl. rewrite map_id.
    apply Permutation_refl.
  - apply strongly_sorted_map_fst; [|apply sorted_ordered].
    intros p I. apply (proj1 (sorted_In snd Nat.ltb p values)) in I.
    unfold values in I. apply in_map_iff in I as [v [<- _]]. reflexivity.
Qed.

(** ** [enforce_node_consistency] and an empty domain, for every puzzle *)

(** X13: on the domains that [__init__] builds for a puzzle whose
    variables and words are sets, [enforce_node_consistency] returns
    normally, keeps the keys, and leaves for every variable exactly the
    vocabulary words of the length of the variable, in vocabulary
    order. *)
Theorem node_consistency_fresh (c : Crossword) :
  NoDup (variables c) -> NoDup (words c) ->
  exists d1,
    enforce_node_consistency c (init_domains c) = (Ret tt, d1)
    /\ dict_keys d1 = variables c
    /\ forall v, In v (variables c) ->
                 dict_get d1 v = Some (filter (fits v) (words c)).
Proof.
  intros Nv Nw.
  destruct (enforce_node_consistency_first c Nv Nw) as [d1 [E P]].
  exists d1. split; [assumption|]. split; [|assumption].
  pose proof (enforce_node_consistency_shrinks c (init_domains c)) as [K _].
  rewrite E in K. simpl in K. now rewrite K, init_domains_keys.
Qed.

(** X14: whatever store it is run on and however it ends,
    [enforce_node_consistency] keeps the keys of the store and only
    removes words from the domains. *)
Theorem node_consistency_only_removes (c : Crossword) (d : domains_t) :
  dict_keys (snd (enforce_node_consistency c d)) = dict_keys d
  /\ forall v, incl (dom (snd (enforce_node_consistency c d)) v) (dom d v).
Proof. apply enforce_node_consistency_shrinks. Qed.

(** X15: run again on the store a first run left, on a puzzle whose
    variables and words are sets, [enforce_node_consistency] leaves the
    store as it is, and it returns normally only when every word of the
    vocabulary fits every variable; otherwise it raises [KeyError]. *)
Theorem node_consistency_rerun (c : Crossword) (d1 : domains_t) :
  NoDup (variables c) -> NoDup (words c) ->
  enforce_node_consistency c (init_domains c) = (Ret tt, d1) ->
  enforce_node_consistency c d1
  = (if forallb (fun v => forallb (fits v) (words c)) (variables c)
     then Ret tt else Raise KeyError, d1).
Proof. apply enforce_node_consistency_twice. Qed.

(** X16: when some variable that is not assigned has an empty domain,
    [backtrack] returns [None] from its first invocation: it selects a
    variable with an empty domain, tries no value, makes no recursive
    call and leaves the store and the assignment as they were. *)
Theorem backtrack_fails_on_empty_domain (c : Crossword) (fuel : nat)
  (st : state) (u : Var) :
  In u (dict_keys (domains st)) ->
  dict_get (assignment st) u = None ->
  dom (domains st) u = [] ->
  backtrack c (S fuel) st = (Ret None, log Call st).
Proof. apply backtrack_empty_domain. Qed.

(** X17: on a puzzle whose overlap indices are inside the slots,
    [consistent] raises no exception on an assignment whose every word
    has the length of its variable: it returns [True] or [False]. *)
Theorem consistent_no_exception (c : Crossword) (a : assignment_t) :
  overlaps_in_range c -> assignment_fits a ->
  exists b, consistent c a = Ret b.
Proof. apply consistent_returns. Qed.

(** * Instances *)

Lemma chain_variables_nodup : NoDup (variables Puzzles.chain).
Proof.
  constructor; [intros [H | []]; discriminate|].
  constructor; [intros [] | constructor].
Qed.

Lemma mixed_words_nodup : NoDup (words Puzzles.mixed).
Proof.
  repeat (constructor; [simpl; intuition discriminate|]). constructor.
Qed.

Lemma path_variables_nodup : NoDup (variables Grids.path).
Proof.
  repeat (constructor; [simpl; intuition discriminate|]). constructor.
Qed.

Lemma path_words_nodup : NoDup (words Grids.path).
Proof.
  repeat (constructor; [simpl; intuition discriminate|]). constructor.
Qed.

Lemma path_overlaps_in_range : overlaps_in_range Grids.path.
Proof.
  intros x y i j H. simpl in H. unfold Grids.path_overlaps in H.
  repeat match type of H with
         | (if ?b then _ else _) = _ =>
             let E := fresh "E" in
             destruct b eqn:E;
             [ apply andb_true_iff in E as [Ex Ey];
               apply Var_eqb_eq in Ex, Ey; subst x y;
               injection H as <- <-; simpl; lia
             | ]
         end.
  discriminate.
Qed.

Lemma select_unassigned_variable_spec_witness :
  select_unassigned_variable Puzzles.corner
    (domains Puzzles.corner_entry) [] = Ret Puzzles.p
  /\ In Puzzles.p (dict_keys (domains Puzzles.corner_entry))
  /\ dict_get ([] : assignment_t) Puzzles.p = None
  /\ forall u, In u (dict_keys (domains Puzzles.corner_entry)) ->
       dict_get ([] : assignment_t) u = None ->
       List.length (dom (domains Puzzles.corner_entry) Puzzles.p)
       <= List.length (dom (domains Puzzles.corner_entry) u)
       /\ (List.length (dom (domains Puzzles.corner_entry) Puzzles.p)
           = List.length (dom (domains Puzzles.corner_entry) u) ->
           List.length (neighbors Puzzles.corner u)
           <= List.length (neighbors Puzzles.corner Puzzles.p)).
Proof.
  split; [reflexivity|].
  apply (select_unassigned_variable_spec Puzzles.corner
           (domains Puzzles.corner_entry) [] Puzzles.p).
  reflexivity.
Defined.

Lemma revise_removes_witness :
  In Puzzles.y (variables Puzzles.chain)
  /\ overlaps Puzzles.chain Puzzles.x Puzzles.y = Some (1, 0)
  /\ revise Puzzles.chain Puzzles.x Puzzles.y (init_domains Puzzles.chain)
     = (Ret true, [(Puzzles.x, ["BC"]); (Puzzles.y, ["AB"; "BC"])])
  /\ (forall w,
        In w (dom [(Puzzles.x, ["BC"]); (Puzzles.y, ["AB"; "BC"])] Puzzles.x)
        <-> In w (dom (init_domains Puzzles.chain) Puzzles.x)
            /\ ~ (In w (dom (init_domains Puzzles.chain) Puzzles.y)
                  /\ ~ partner 1 0 (dom (init_domains Puzzles.chain) Puzzles.x)
                         w))
  /\ (true = true <->
      exists word_y,
        In word_y (dom (init_domains Puzzles.chain) Puzzles.y)
        /\ ~ partner 1 0 (dom (init_domains Puzzles.chain) Puzzles.x) word_y).
Proof.
  split; [simpl; auto|]. split; [reflexivity|]. split; [reflexivity|].
  apply (revise_removes Puzzles.chain Puzzles.x Puzzles.y
           (init_domains Puzzles.chain) _ 1 0 true).
  - simpl. auto.
  - reflexivity.
  - reflexivity.
Defined.

Lemma ac3_no_exception_witness :
  overlaps_in_range Grids.path
  /\ store_ok Grids.path
       (snd (enforce_node_consistency Grids.path (init_domains Grids.path)))
  /\ fst (ac3 Grids.path 20 None
              (snd (enforce_node_consistency Grids.path
                                             (init_domains Grids.path))))
     <> Raise IndexError.
Proof.
  assert (Ok : store_ok Grids.path
                 (snd (enforce_node_consistency Grids.path
                                                (init_domains Grids.path)))).
  { apply node_consistent_store_ok.
    - exact path_variables_nodup.
    - exact path_words_nodup.
    - reflexivity. }
  split; [exact path_overlaps_in_range|]. split; [exact Ok|].
  apply (ac3_no_exception Grids.path 20 None _ IndexError).
  - exact path_overlaps_in_range.
  - exact Ok.
  - discriminate.
Defined.

Lemma ac3_without_overlaps_witness :
  (forall x y, overlaps Grids.apart x y = None)
  /\ List.length (initial_stack None (init_domains Grids.apart)) < 5
  /\ ac3 Grids.apart 5 None (init_domains Grids.apart)
     = (Ret true, init_domains Grids.apart).
Proof.
  split; [reflexivity|]. split; [simpl; lia|].
  apply (ac3_without_overlaps Grids.apart 5 None (init_domains Grids.apart)).
  - reflexivity.
  - simpl. lia.
Defined.

Lemma solve_from_vocabulary_witness :
  solve Puzzles.swap 10
  = (Ret (Some [(Puzzles.x, "AB"); (Puzzles.y, "BA")]),
     snd (solve Puzzles.swap 10))
  /\ from_vocabulary Puzzles.swap [(Puzzles.x, "AB"); (Puzzles.y, "BA")].
Proof.
  split; [vm_compute; reflexivity|].
  apply (solve_from_vocabulary Puzzles.swap 10 _ (snd (solve Puzzles.swap 10))).
  vm_compute. reflexivity.
Defined.

(** On the three slots in a row with the vocabulary BCC, BBB, CCA the
    search assigns BCC to the last slot and BBB to the middle one; the
    scoped call of [ac3] then removes BCC from the domain of the last
    slot, the branch fails, and the loop over that domain finds it
    changed. *)
Lemma solve_raises_only_runtime_error_witness :
  NoDup (variables Grids.path) /\ NoDup (words Grids.path)
  /\ overlaps_in_range Grids.path
  /\ fst (solve Grids.path 10) = Raise RuntimeError
  /\ RuntimeError = RuntimeError.
Proof.
  split; [exact path_variables_nodup|]. split; [exact path_words_nodup|].
  split; [exact path_overlaps_in_range|]. split; [vm_compute; reflexivity|].
  apply (solve_raises_only_runtime_error Grids.path 10 RuntimeError).
  - exact path_variables_nodup.
  - exact path_words_nodup.
  - exact path_overlaps_in_range.
  - vm_compute. reflexivity.
Defined.

Lemma letter_grid_cells_witness :
  letter_grid 1 2 [(Grids.top, "AB")]
  = Ret [[Some "A"%char; Some "B"%char]]
  /\ (forall i j ch,
        cell_at [[Some "A"%char; Some "B"%char]] i j = Some ch ->
        letter_in [(Grids.top, "AB")] i j ch)
  /\ (agree [(Grids.top, "AB")] ->
      forall i j ch,
        cell_at [[Some "A"%char; Some "B"%char]] i j = Some ch
        <-> letter_in [(Grids.top, "AB")] i j ch).
Proof.
  split; [reflexivity|].
  apply (letter_grid_cells 1 2 [(Grids.top, "AB")]). reflexivity.
Defined.

Lemma order_domain_values_isolated_witness :
  dict_get (init_domains Grids.apart) Grids.top = Some ["AB"; "CD"; "EFG"]
  /\ (forall n, In n (neighbors Grids.apart Grids.top) ->
                dict_get (init_domains Grids.apart) n = Some [])
  /\ exists l,
       order_domain_values Grids.apart (init_domains Grids.apart)
                           Grids.top [] = Ret l
       /\ Permutation l ["AB"; "CD"; "EFG"]
       /\ StronglySorted
            (fun u w => count_domains (init_domains Grids.apart) u
                        <= count_domains (init_domains Grids.apart) w) l.
Proof.
  split; [reflexivity|]. split; [intros n []|].
  apply (order_domain_values_isolated Grids.apart (init_domains Grids.apart)
           Grids.top [] ["AB"; "CD"; "EFG"]).
  - reflexivity.
  - intros n [].
Defined.

Lemma node_consistency_fresh_witness :
  NoDup (variables Puzzles.mixed) /\ NoDup (words Puzzles.mixed)
  /\ exists d1,
       enforce_node_consistency Puzzles.mixed (init_domains Puzzles.mixed)
       = (Ret tt, d1)
       /\ dict_keys d1 = variables Puzzles.mixed
       /\ forall v, In v (variables Puzzles.mixed) ->
                    dict_get d1 v
                    = Some (filter (fits v) (words Puzzles.mixed)).
Proof.
  split; [exact chain_variables_nodup|]. split; [exact mixed_words_nodup|].
  apply (node_consistency_fresh Puzzles.mixed).
  - exact chain_variables_nodup.
  - exact mixed_words_nodup.
Defined.

Lemma node_consistency_rerun_witness :
  NoDup (variables Puzzles.mixed) /\ NoDup (words Puzzles.mixed)
  /\ enforce_node_consistency Puzzles.mixed (init_domains Puzzles.mixed)
     = (Ret tt, [(Puzzles.x, ["AB"; "BC"]); (Puzzles.y, ["AB"; "BC"])])
  /\ enforce_node_consistency Puzzles.mixed
       [(Puzzles.x, ["AB"; "BC"]); (Puzzles.y, ["AB"; "BC"])]
     = (if forallb (fun v => forallb (fits v) (words Puzzles.mixed))
                   (variables Puzzles.mixed)
        then Ret tt else Raise KeyError,
        [(Puzzles.x, ["AB"; "BC"]); (Puzzles.y, ["AB"; "BC"])]).
Proof.
  split; [exact chain_variables_nodup|]. split; [exact mixed_words_nodup|].
  split; [reflexivity|].
  apply (node_consistency_rerun Puzzles.mixed).
  - exact chain_variables_nodup.
  - exact mixed_words_nodup.
  - reflexivity.
Defined.

Lemma backtrack_fails_on_empty_domain_witness :
  In Puzzles.lone (dict_keys Grids.ring_store)
  /\ dom Grids.ring_store Puzzles.lone = []
  /\ backtrack Puzzles.ring 1 (mkState Grids.ring_store [] [])
     = (Ret None, mkState Grids.ring_store [] [Call]).
Proof.
  split; [simpl; auto 10|]. split; [reflexivity|].
  apply (backtrack_fails_on_empty_domain Puzzles.ring 0
           (mkState Grids.ring_store [] []) Puzzles.lone).
  - simpl. auto 10.
  - reflexivity.
  - reflexivity.
Defined.

Lemma path_assignment_fits :
  assignment_fits [(Grids.s0, "BCC"); (Grids.s1, "CCA")].
Proof.
  intros v w G. apply dict_get_In in G.
  destruct G as [[= <- <-] | [[= <- <-] | []]]; reflexivity.
Qed.

Lemma consistent_no_exception_witness :
  overlaps_in_range Grids.path
  /\ assignment_fits [(Grids.s0, "BCC"); (Grids.s1, "CCA")]
  /\ exists b,
       consistent Grids.path [(Grids.s0, "BCC"); (Grids.s1, "CCA")] = Ret b.
Proof.
  split; [exact path_overlaps_in_range|].
  split; [exact path_assignment_fits|].
  apply (consistent_no_exception Grids.path).
  - exact path_overlaps_in_range.
  - exact path_assignment_fits.
Defined.
